(** * Algebras and coalgebras with basis

    A shallow embedding of [sage/categories/algebras_with_basis.py] and
    [sage/categories/coalgebras_with_basis.py].

    Elements of a module with basis are their dictionaries of monomial
    coefficients (index of the basis element to non-zero coefficient); the
    dictionaries are [gmap]s, so that two elements are equal exactly when
    Python's [==] on the dictionaries holds. *)

From Stdlib Require Import ZArith Ring List Permutation.
From Stdlib Require QArith Qcanon.
From stdpp Require Import gmap list fin_maps.
From Equations Require Import Equations.

(** ** Python exceptions and results *)

Inductive exn : Set :=
| ValueError
| NotImplementedError
| TypeError
| AssertionError
| AttributeError
| KeyError
| ZeroDivisionError.

Inductive result (A : Type) : Type :=
| Ok (a : A)
| Raise (e : exn).
Arguments Ok {A} a.
Arguments Raise {A} e.

Definition rbind {A B} (r : result A) (f : A → result B) : result B :=
  match r with
  | Ok a => f a
  | Raise e => Raise e
  end.

Notation "x ← r ;;; k" := (rbind r (λ x, k))
  (at level 20, r at level 100, k at level 200, right associativity, only parsing).

(** Evaluating a Python generator of fallible computations from left to
    right: the first exception escapes. *)
Fixpoint rmapM {A B} (f : A → result B) (l : list A) : result (list B) :=
  match l with
  | [] => Ok []
  | a :: l' => b ← f a ;;; bs ← rmapM f l' ;;; Ok (b :: bs)
  end.

(** An attribute of a Python object looked up with [hasattr] and compared
    with [NotImplemented]: missing, present as the [NotImplemented] left by
    an optional abstract method, or a real method. *)
Inductive attribute (A : Type) : Type :=
| Missing
| NotImplemented
| Method (a : A).
Arguments Missing {A}.
Arguments NotImplemented {A}.
Arguments Method {A} a.

Definition hasattr {A} (a : attribute A) : bool :=
  match a with Missing => false | _ => true end.

Definition is_not_NotImplemented {A} (a : attribute A) : bool :=
  match a with NotImplemented => false | _ => true end.

(** Calling an attribute: looking up a missing one raises
    [AttributeError], and [NotImplemented] is not callable. *)
Definition call {A} (a : attribute A) : result A :=
  match a with
  | Method v => Ok v
  | NotImplemented => Raise TypeError
  | Missing => Raise AttributeError
  end.

(** ** The base ring *)

(** Modelled from the spec: the base ring of the categories, a commutative
    ring whose elements can be compared with zero (the dictionaries of
    coefficients never store a zero). *)
Record base_ring : Type := BaseRing {
  R :> Type;
  rO : R;
  rI : R;
  radd : R → R → R;
  rmul : R → R → R;
  rsub : R → R → R;
  ropp : R → R;
  R_eq_dec : EqDecision R;
  R_ring : ring_theory rO rI radd rmul rsub ropp eq
}.
#[export] Existing Instance R_eq_dec.

Declare Scope base_ring_scope.
Delimit Scope base_ring_scope with br.
Notation "0" := (rO _) : base_ring_scope.
Notation "1" := (rI _) : base_ring_scope.
Infix "+" := (radd _) : base_ring_scope.
Infix "*" := (rmul _) : base_ring_scope.

(** Modelled from the spec: [~c] on the coefficients. The result is an
    element of the ring or of a larger one (the inverse of an integer is a
    rational); [None] where [~c] raises [ZeroDivisionError]. [is_nonzero]
    is the truth value of such a result, which [term] reads to leave a
    zero coefficient out. *)
Record inversion (BR : base_ring) : Type := Inversion {
  inverse_carrier : Type;
  invert_coefficient : BR → option inverse_carrier;
  is_nonzero : inverse_carrier → bool
}.
Arguments inverse_carrier {BR} _.
Arguments invert_coefficient {BR} _ _.
Arguments is_nonzero {BR} _ _.

(** An inversion whose results are elements of the ring itself. *)
Definition in_ring {BR : base_ring} (rinv : BR → option BR) : inversion BR :=
  Inversion BR BR rinv (λ c, bool_decide (c ≠ rO BR)).

(** ** Modules with basis *)

Section FreeModule.
Context {BR : base_ring}.
Add Ring BR_ring : (R_ring BR).
Local Open Scope base_ring_scope.

(** Finite sums in the base ring. *)
Definition lsum {A} (φ : A → BR) (l : list A) : BR :=
  foldr (λ a s, φ a + s) 0 l.

Section Keys.
Context `{Countable K}.

(** [x[k]]: the coefficient of the basis element [k], zero when the
    dictionary has no entry. *)
Definition coeff (x : gmap K BR) (k : K) : BR := default 0 (x !! k).

(** Elements never store a zero coefficient. *)
Definition wf (x : gmap K BR) : Prop := ∀ k, x !! k ≠ Some 0.

(** Adding [c * B[k]] in place, dropping the entry when it cancels. *)
Definition add_term (x : gmap K BR) (kc : K * BR) : gmap K BR :=
  let v := coeff x kc.1 + kc.2 in
  if decide (v = 0) then delete kc.1 x else <[kc.1 := v]> x.

(** Modelled from the spec: [sum_of_terms], the element whose
    coefficients are the sums of the given (index, coefficient) pairs. *)
Definition sum_of_terms (l : list (K * BR)) : gmap K BR :=
  foldl add_term ∅ l.

(** Modelled from the spec: [term(index, coeff)]. *)
Definition term (k : K) (c : BR) : gmap K BR := sum_of_terms [(k, c)].

(** Modelled from the spec: [monomial(index)], the basis element. *)
Definition monomial (k : K) : gmap K BR := term k 1.

(** Modelled from the spec: [sum_of_monomials(indices)]. *)
Definition sum_of_monomials (l : list K) : gmap K BR :=
  sum_of_terms ((λ k, (k, 1)) <$> l).

(** The terms of [c * y]. *)
Definition scaled_terms (yc : gmap K BR * BR) : list (K * BR) :=
  (λ kv : K * BR, (kv.1, yc.2 * kv.2)) <$> map_to_list yc.1.

(** Modelled from the spec: [linear_combination] of (element,
    coefficient) pairs. *)
Definition linear_combination (l : list (gmap K BR * BR)) : gmap K BR :=
  sum_of_terms (l ≫= scaled_terms).

(** Modelled from the spec: the module morphism by linearity with the
    base ring as codomain, [x ↦ Σ x[k] * on_basis(k)]. *)
Definition module_morphism_to_ring (on_basis : K → BR) (x : gmap K BR) : BR :=
  lsum (λ kc : K * BR, kc.2 * on_basis kc.1) (map_to_list x).
End Keys.

(** Modelled from the spec: the module morphism by linearity into a module
    with basis, [x ↦ Σ x[k] * on_basis(k)]. *)
Definition module_morphism `{Countable K1} `{Countable K2}
    (on_basis : K1 → gmap K2 BR) (x : gmap K1 BR) : gmap K2 BR :=
  linear_combination ((λ kc : K1 * BR, (on_basis kc.1, kc.2)) <$> map_to_list x).

End FreeModule.

(** ** Tensor products of modules with basis *)

Section Tensor.
Context {BR : base_ring} `{Countable K}.
Local Open Scope base_ring_scope.

(** A Python value that is an element of the module [A] itself (indices
    are the basis keys) or of a tensor product of copies and factors of
    such modules (indices are tuples of keys). *)
Inductive element : Type :=
| Plain (x : gmap K BR)
| Tensor (t : gmap (list K) BR).

(** The dictionary of an element with every index read as a tuple: the
    flattening done by the [tensor] constructor, under which an operand
    that is a tensor product contributes its factors. *)
Definition flat (e : element) : gmap (list K) BR :=
  match e with
  | Plain x => kmap (λ k : K, [k]) x
  | Tensor t => t
  end.

(** The (tuple, coefficient) terms of [l_1 # ... # l_n]. *)
Fixpoint tensor_terms (l : list (gmap (list K) BR)) : list (list K * BR) :=
  match l with
  | [] => [([], 1)]
  | a :: l' =>
      s ← map_to_list a; t ← tensor_terms l'; [(s.1 ++ t.1, s.2 * t.2)]
  end.

(** Modelled from the spec: the [tensor] constructor applied to a
    sequence of elements; the functorial construction asserts that the
    sequence is not empty. *)
Definition tensor (l : list element) : result (gmap (list K) BR) :=
  match l with
  | [] => Raise AssertionError
  | _ => Ok (sum_of_terms (tensor_terms (flat <$> l)))
  end.

(** Modelled from the spec: [apply_multilinear_morphism] on an element of
    [A # A], for a bilinear [f] with values in a tensor product:
    [Σ c * f(B[i], B[j])] over the terms [c * B[i] # B[j]] of the element.
    [f] receives one argument per factor of the parent ([zip] of the two
    factors with the index), so an index with fewer than two components
    is a call with a missing argument. *)
Definition apply_multilinear_morphism
    (f : gmap K BR → gmap K BR → result (gmap (list K) BR))
    (y : gmap (list K) BR) : result (gmap (list K) BR) :=
  terms ← rmapM (λ mc : list K * BR,
                   match mc.1 with
                   | i :: j :: _ => v ← f (monomial i) (monomial j) ;;; Ok (v, mc.2)
                   | _ => Raise TypeError
                   end) (map_to_list y) ;;;
  Ok (linear_combination terms).
End Tensor.
Arguments element {BR} K {_ _}.

(** ** Algebras with basis ([algebras_with_basis.py]) *)

Section AlgebrasWithBasis.
Context {BR : base_ring} `{Countable K}.
Local Open Scope base_ring_scope.

(** The part of a parent in [AlgebrasWithBasis] that the code reads. *)
Record algebra_parent : Type := AlgebraParent {
  one_basis : attribute K;
  product_on_basis : K → K → gmap K BR
}.

(** Modelled from the spec: the product of two elements, the linear
    extension of [product_on_basis] in both arguments. *)
Definition product (A : algebra_parent) (a b : gmap K BR) : gmap K BR :=
  linear_combination
    (l ← map_to_list a; r ← map_to_list b;
     [(product_on_basis A l.1 r.1, l.2 * r.2)]).

(** *** [ElementMethods.__invert__] *)

(** The method reads the dictionary of [self] in place
    ([monomial_coefficients(copy=False)]): a computation over that
    dictionary, which yields a result or an exception and the dictionary
    it leaves behind. *)
Definition on_dict (A : Type) : Type := gmap K BR → result A * gmap K BR.

Definition dret {A} (r : result A) : on_dict A := λ mcs, (r, mcs).
Definition dbind {A B} (m : on_dict A) (f : A → on_dict B) : on_dict B :=
  λ mcs, match m mcs with
         | (Ok a, mcs') => f a mcs'
         | (Raise e, mcs') => (Raise e, mcs')
         end.
Definition dict_len : on_dict nat := λ mcs, (Ok (size mcs), mcs).
Definition dict_contains (k : K) : on_dict bool :=
  λ mcs, (Ok (bool_decide (is_Some (mcs !! k))), mcs).
Definition dict_getitem (k : K) : on_dict BR :=
  λ mcs, (match mcs !! k with Some c => Ok c | None => Raise KeyError end, mcs).

(** [~c] on an element of the base ring. *)
Definition inverse (I : inversion BR) (c : BR) : result (inverse_carrier I) :=
  match invert_coefficient I c with
  | Some c' => Ok c'
  | None => Raise ZeroDivisionError
  end.

(** Modelled from the spec: [term(index, coeff)] of the parent on the
    result of [~c], which the parent takes for a coefficient of its own. *)
Definition term_of_inverse (I : inversion BR) (k : K) (c' : inverse_carrier I)
    : gmap K (inverse_carrier I) :=
  if is_nonzero I c' then {[k := c']} else ∅.

Definition __invert__ (I : inversion BR) (parent : algebra_parent)
    : on_dict (gmap K (inverse_carrier I)) :=
  dbind (dret (call (one_basis parent))) (λ one,
  dbind dict_len (λ len,
  dbind (if bool_decide (len = 1%nat) then dict_contains one else dret (Ok false))
    (λ guard,
  if guard then
    dbind (dict_getitem one) (λ c,
    dbind (dret (inverse I c)) (λ c',
    dret (Ok (term_of_inverse I one c'))))
  else dret (Raise ValueError)))).

(** *** [CartesianProducts] *)

(** Modelled from the spec: [_sets_keys], the positions of the factors. *)
Definition sets_keys (sets : list algebra_parent) : list nat :=
  seq 0 (length sets).

Definition one_from_cartesian_product_of_one_basis
    (sets : list algebra_parent) : result (gmap (nat * K) BR) :=
  ones ← rmapM (λ set, call (one_basis set)) sets ;;;
  Ok (sum_of_monomials (zip (sets_keys sets) ones)).

(** The two methods the lazy attribute [one] can resolve to. *)
Inductive cartesian_one_method : Set :=
| OneFromCartesianProductOfOneBasis
| OneGeneric.

Definition cartesian_one (sets : list algebra_parent) : cartesian_one_method :=
  if forallb (λ module, hasattr (one_basis module)
                        && is_not_NotImplemented (one_basis module)) sets
  then OneFromCartesianProductOfOneBasis
  else OneGeneric.

(** *** [TensorProducts] *)

Definition tensor_one_basis (sets : list algebra_parent) : result (list K) :=
  if forallb (λ module, hasattr (one_basis module)) sets
  then rmapM (λ module, call (one_basis module)) sets
  else Raise NotImplementedError.

(** Modelled from the spec: [one] of a parent that has [one_basis], the
    basis element indexed by [one_basis()]. *)
Definition tensor_one (sets : list algebra_parent) : result (gmap (list K) BR) :=
  i ← tensor_one_basis sets ;;; Ok (monomial i).

(** [zip(self._sets, t1, t2)]: as long as the shortest of the three. *)
Fixpoint zip3 {A B C} (a : list A) (b : list B) (c : list C) : list (A * B * C) :=
  match a, b, c with
  | x :: a', y :: b', z :: c' => (x, y, z) :: zip3 a' b' c'
  | _, _, _ => []
  end.

Definition tensor_product_on_basis (sets : list algebra_parent)
    (t1 t2 : list K) : result (gmap (list K) BR) :=
  tensor ((λ mxy : algebra_parent * K * K,
             Plain (product mxy.1.1 (monomial mxy.1.2) (monomial mxy.2)))
          <$> zip3 sets t1 t2).
End AlgebrasWithBasis.
Arguments algebra_parent BR K {_ _}.

(** ** Coalgebras with basis ([coalgebras_with_basis.py]) *)

Section CoalgebrasWithBasis.
Context {BR : base_ring} `{Countable K}.
Local Open Scope base_ring_scope.

(** The part of a parent in [CoalgebrasWithBasis] that the code reads.
    The two optional abstract methods are always present, as a method or
    as [NotImplemented] ([None] here); the two [_by_coercion] methods are
    looked up with [hasattr] ([None]: no such attribute). *)
Record coalgebra_parent : Type := CoalgebraParent {
  coproduct_on_basis : option (K → gmap (list K) BR);
  coproduct_by_coercion : option (gmap K BR → gmap (list K) BR);
  counit_on_basis : option (K → BR);
  counit_by_coercion : option (gmap K BR → BR)
}.

(** The lazy attribute [coproduct]; Python's implicit [None] when neither
    branch applies. *)
Definition coproduct (self : coalgebra_parent)
    : option (gmap K BR → gmap (list K) BR) :=
  match coproduct_on_basis self with
  | Some on_basis => Some (module_morphism on_basis)
  | None =>
      match coproduct_by_coercion self with
      | Some by_coercion => Some by_coercion
      | None => None
      end
  end.

(** The lazy attribute [counit]. *)
Definition counit (self : coalgebra_parent) : option (gmap K BR → BR) :=
  match counit_on_basis self with
  | Some on_basis => Some (module_morphism_to_ring on_basis)
  | None =>
      match counit_by_coercion self with
      | Some by_coercion => Some by_coercion
      | None => None
      end
  end.

(** Modelled from the spec: the element method [coproduct()], the
    coproduct of the parent applied to the element; calling [None] is a
    [TypeError]. *)
Definition element_coproduct (parent : coalgebra_parent) (x : gmap K BR)
    : result (gmap (list K) BR) :=
  match coproduct parent with
  | Some Δ => Ok (Δ x)
  | None => Raise TypeError
  end.

(** [ElementMethods.coproduct_iterated]. *)
Equations? coproduct_iterated (parent : coalgebra_parent) (n : Z)
    (self : gmap K BR) : result (element K) by wf (Z.to_nat n) lt :=
coproduct_iterated parent n self with decide (n < 0)%Z := {
  | left _ => Raise ValueError
  | right _ with decide (n = 0)%Z := {
    | left _ => Ok (Plain self)
    | right _ with decide (n = 1)%Z := {
      | left _ => y ← element_coproduct parent self ;;; Ok (Tensor y)
      | right _ =>
          let fn := ((n - 1) `div` 2)%Z in
          let cn := (if decide (n `mod` 2 ≠ 0)%Z
                     then (n - 1) `div` 2 else n `div` 2)%Z in
          let split := λ a b,
            ra ← coproduct_iterated parent fn a ;;;
            rb ← coproduct_iterated parent cn b ;;;
            tensor [ra; rb] in
          y ← element_coproduct parent self ;;;
          t ← apply_multilinear_morphism split y ;;;
          Ok (Tensor t) } } }.
Proof.
  - assert (0 ≤ fn < n)%Z; [subst fn|lia].
    split; [apply Z.div_pos | apply Z.div_lt_upper_bound]; lia.
  - assert (0 ≤ cn < n)%Z; [subst cn|lia].
    case_decide; (split; [apply Z.div_pos | apply Z.div_lt_upper_bound]; lia).
Defined.
End CoalgebrasWithBasis.
Arguments coalgebra_parent BR K {_ _}.

(** ** The categories and their functorial constructions *)

Inductive functor : Set :=
| CartesianProductsFunctor
| TensorProductsFunctor
| SuperFunctor
| GradedFunctor.

(** The categories of the two files over a base ring, and the categories
    built from a category by a functorial construction. *)
Inductive category : Type :=
| AlgebrasWithBasis (R : base_ring)
| CoalgebrasWithBasis (R : base_ring)
| Construction (F : functor) (base : category).

(** A category built by a functorial construction, the [self] of the
    methods of the nested classes [CartesianProducts], [TensorProducts]
    and [Super]: [base_category()] is the category the construction was
    applied to. *)
Record construction_category : Type := ConstructionCategory {
  construction_functor : functor;
  base_category : category
}.

(** [C.CartesianProducts()], [C.TensorProducts()], [C.Super()]. *)
Definition CartesianProducts (C : category) : construction_category :=
  ConstructionCategory CartesianProductsFunctor C.
Definition TensorProducts (C : category) : construction_category :=
  ConstructionCategory TensorProductsFunctor C.


(** [AlgebrasWithBasis.CartesianProducts.extra_super_categories]. *)
Definition CartesianProducts_extra_super_categories
    (self : construction_category) : list category :=
  [base_category self].

(** [AlgebrasWithBasis.TensorProducts.extra_super_categories]. *)
Definition TensorProducts_extra_super_categories
    (self : construction_category) : list category :=
  [base_category self].


(** ** Reference definitions *)

Abbreviation eval := module_morphism_to_ring.

Section Reference.
Context {BR : base_ring} `{Countable K}.
Local Open Scope base_ring_scope.

(** The indicator of the index [j]: evaluating an element at it reads
    the coefficient of [j]. *)
Definition indicator (j k : K) : BR := if decide (k = j) then 1 else 0.

(** [Δ] applied to the tensor factor at position [p] of the basis
    element [B[t_0] # ... # B[t_m]]; the identity when there is no such
    factor. *)
Definition coproduct_at_on_basis (Δ : gmap K BR → gmap (list K) BR)
    (p : nat) (t : list K) : gmap (list K) BR :=
  match t !! p with
  | Some i =>
      sum_of_terms
        (tensor_terms [monomial (take p t); Δ (monomial i); monomial (drop (S p) t)])
  | None => monomial t
  end.

(** [id # ... # Δ # ... # id], with [Δ] at position [p], extended by
    linearity. *)
Definition coproduct_at (Δ : gmap K BR → gmap (list K) BR) (p : nat)
    (y : gmap (list K) BR) : gmap (list K) BR :=
  module_morphism (coproduct_at_on_basis Δ p) y.

(** The naive iterated coproduct: [n] times, apply the coproduct to the
    element of [A], or to the leftmost factor of the element of the
    tensor power reached so far. *)
Fixpoint coproduct_naive (Δ : gmap K BR → gmap (list K) BR) (n : nat)
    (x : gmap K BR) : element K :=
  match n with
  | O => Plain x
  | S n' =>
      match coproduct_naive Δ n' x with
      | Plain y => Tensor (Δ y)
      | Tensor t => Tensor (coproduct_at Δ 0 t)
      end
  end.

(** The coproduct takes its values in [A # A]. *)
Definition arity2 (Δ : gmap K BR → gmap (list K) BR) : Prop :=
  ∀ x t, is_Some (Δ x !! t) → length t = 2%nat.

(** Coassociativity: [(Δ # id) ∘ Δ = (id # Δ) ∘ Δ]. *)
Definition coassociative (Δ : gmap K BR → gmap (list K) BR) : Prop :=
  ∀ x, coproduct_at Δ 0 (Δ x) = coproduct_at Δ 1 (Δ x).

(** The dual of [coproduct_at]: the functional [φ] on tuples pulled back
    along [Δ] at position [p]. *)
Definition pull (Δ : gmap K BR → gmap (list K) BR) (p : nat)
    (φ : list K → BR) (t : list K) : BR :=
  match t !! p with
  | Some i => eval (λ s, φ (take p t ++ s ++ drop (S p) t)) (Δ (monomial i))
  | None => φ t
  end.

(** The evaluation of [l_1 # ... # l_n] at a functional on tuples. *)
Definition teval (φ : list K → BR) (l : list (gmap (list K) BR)) : BR :=
  lsum (λ kc : list K * BR, kc.2 * φ kc.1) (tensor_terms l).

(** The coefficient of the tuple [t] in [l_1 # ... # l_n], for elements
    [l_j] of the factors: the product of the coefficients of the [t_j]. *)
Fixpoint tensor_coeff (l : list (gmap K BR)) (t : list K) : BR :=
  match l, t with
  | [], [] => 1
  | a :: l', k :: t' => coeff a k * tensor_coeff l' t'
  | _, _ => 0
  end.
(** The value of [split] on a pair of basis elements, zero where it
    raises. *)
Definition split_value (parent : coalgebra_parent BR K) (fn cn : Z)
    (t : list K) : gmap (list K) BR :=
  match t with
  | i :: j :: _ =>
      match (ra ← coproduct_iterated parent fn (monomial i) ;;;
             rb ← coproduct_iterated parent cn (monomial j) ;;;
             tensor [ra; rb]) with
      | Ok v => v
      | Raise _ => ∅
      end
  | _ => ∅
  end.
(** The value of [coproduct_iterated(n)] on the basis element [B[k]],
    with its indices read as tuples; zero where it raises. *)
Definition iterated_on_basis (parent : coalgebra_parent BR K) (n : Z)
    (k : K) : gmap (list K) BR :=
  match coproduct_iterated parent n (monomial k) with
  | Ok e => flat e
  | Raise _ => ∅
  end.
End Reference.

(** ** A concrete base ring and concrete parents *)

(** The integers [ZZ]. *)
Definition integers : base_ring :=
  BaseRing Z 0%Z 1%Z Z.add Z.mul Z.sub Z.opp _ Zth.
Canonical Structure integers.

(** The rational [a/b], in lowest terms. *)
Definition QQ_of (a : Z) (b : positive) : Qcanon.Qc :=
  Qcanon.Q2Qc (QArith_base.Qmake a b).

(** The rational field [QQ] of the docstrings. *)
Definition rationals : base_ring :=
  BaseRing Qcanon.Qc (QQ_of 0 1) (QQ_of 1 1) Qcanon.Qcplus Qcanon.Qcmult
    Qcanon.Qcminus Qcanon.Qcopp Qcanon.Qc_eq_dec Qcanon.Qcrt.
Canonical Structure rationals.

(** [~c] in [QQ]: the inverse, and [ZeroDivisionError] at zero. *)
Definition QQ_inv (c : Qcanon.Qc) : option Qcanon.Qc :=
  if Qcanon.Qc_eq_dec c (QQ_of 0 1) then None else Some (Qcanon.Qcinv c).

Definition QQ_inversion : inversion rationals := in_ring QQ_inv.

(** [~c] in [ZZ]: the rational [1/c], and [ZeroDivisionError] at zero. *)
Definition ZZ_inv (c : Z) : option Qcanon.Qc :=
  if Z.eq_dec c 0%Z then None else Some (Qcanon.Qcinv (QQ_of c 1)).

Definition ZZ_inversion : inversion integers :=
  Inversion integers Qcanon.Qc ZZ_inv
    (λ q, if Qcanon.Qc_eq_dec q (QQ_of 0 1) then false else true).











(** The coalgebra of the docstrings: the coproduct of a basis element [g]
    is [B[g] # B[g]] and its counit is [1]. *)
Definition grouplike_on_basis (g : nat) : gmap (list nat) integers :=
  monomial [g; g].

Definition grouplike : coalgebra_parent integers nat :=
  CoalgebraParent (BR := integers)
    (Some grouplike_on_basis) None (Some (λ _, 1%Z)) None.

(** A parent without [counit_on_basis], whose counit comes by coercion. *)
Definition by_coercion_only : coalgebra_parent integers nat :=
  CoalgebraParent (BR := integers)
    None None None (Some (module_morphism_to_ring (λ _, 1%Z))).

(** The divided power coalgebra, [Δ(B[n]) = Σ B[i] # B[n - i]]. *)
Definition divided_power_on_basis (n : nat) : gmap (list nat) integers :=
  sum_of_monomials ((λ i, [i; n - i]%nat) <$> seq 0 (S n)).

Definition divided_power : coalgebra_parent integers nat :=
  CoalgebraParent (BR := integers)
    (Some divided_power_on_basis) None None None.

(** The algebra of the docstrings: the free algebra, with the words as
    basis, concatenation as product and the empty word as [one_basis]. *)
Definition free_algebra : algebra_parent integers (list nat) :=
  AlgebraParent (BR := integers) (Method []) (λ u v, monomial (u ++ v)).

(** The same algebra over [QQ], [AlgebrasWithBasis(QQ).example()]. *)
Definition free_algebra_QQ : algebra_parent rationals (list nat) :=
  AlgebraParent (BR := rationals) (Method []) (λ u v, monomial (u ++ v)).

(** An algebra whose optional [one_basis] is left [NotImplemented], and a
    module without the attribute. *)
Definition without_one_basis : algebra_parent integers (list nat) :=
  AlgebraParent (BR := integers) NotImplemented (λ u v, monomial (u ++ v)).

Definition no_one_basis_attribute : algebra_parent integers (list nat) :=
  AlgebraParent (BR := integers) Missing (λ u v, monomial (u ++ v)).

(** Three copies of the free algebra, the factors of the tensor product
    and of the Cartesian product of the docstrings. *)
Definition three_copies : list (algebra_parent integers (list nat)) :=
  [free_algebra; free_algebra; free_algebra].

(** A parent with neither [coproduct_on_basis] nor
    [coproduct_by_coercion], and one whose coproduct comes by coercion. *)
Definition no_coproduct : coalgebra_parent integers nat :=
  CoalgebraParent (BR := integers) None None None None.

Definition coproduct_by_coercion_only : coalgebra_parent integers nat :=
  CoalgebraParent (BR := integers)
    None (Some (module_morphism grouplike_on_basis)) None None.

(** [2*B[1] + 5*B[3]]. *)
Definition sample_element : gmap nat integers :=
  sum_of_terms [(1%nat, 2%Z); (3%nat, 5%Z)].

(** * Properties *)

(** ** Finite sums and the evaluation of elements *)

Section SumTheory.
Context {BR : base_ring}.
Add Ring BR_ring_sum : (R_ring BR).
Local Open Scope base_ring_scope.

Lemma lsum_nil {A} (φ : A → BR) : lsum φ [] = 0.
Proof. reflexivity. Qed.

Lemma lsum_cons {A} (φ : A → BR) a l : lsum φ (a :: l) = φ a + lsum φ l.
Proof. reflexivity. Qed.

Lemma lsum_app {A} (φ : A → BR) l1 l2 :
  lsum φ (l1 ++ l2) = lsum φ l1 + lsum φ l2.
Proof.
  induction l1 as [|a l1 IH]; cbn [app]; rewrite ?lsum_nil, ?lsum_cons, ?IH; ring.
Qed.

Lemma lsum_ext_in {A} (φ ψ : A → BR) l :
  (∀ a, a ∈ l → φ a = ψ a) → lsum φ l = lsum ψ l.
Proof.
  induction l as [|a l IH]; intros Hl; [done|].
  rewrite !lsum_cons, IH, (Hl a) by (try intros; set_solver). done.
Qed.

Lemma lsum_ext {A} (φ ψ : A → BR) l :
  (∀ a, φ a = ψ a) → lsum φ l = lsum ψ l.
Proof. intros Hl. apply lsum_ext_in. auto. Qed.

Lemma lsum_perm {A} (φ : A → BR) l1 l2 :
  l1 ≡ₚ l2 → lsum φ l1 = lsum φ l2.
Proof.
  induction 1 as [|a l1 l2 _ IH|a b l|l1 l2 l3 _ IH1 _ IH2];
    rewrite ?lsum_cons, ?IH; try congruence; ring.
Qed.

Lemma lsum_fmap {A B} (f : A → B) (φ : B → BR) l :
  lsum φ (f <$> l) = lsum (λ a, φ (f a)) l.
Proof. induction l as [|a l IH]; [done|]. by rewrite fmap_cons, !lsum_cons, IH. Qed.

Lemma lsum_bind {A B} (g : A → list B) (φ : B → BR) l :
  lsum φ (l ≫= g) = lsum (λ a, lsum φ (g a)) l.
Proof.
  induction l as [|a l IH]; [done|].
  by rewrite bind_cons, lsum_app, lsum_cons, IH.
Qed.

Lemma lsum_zero {A} (l : list A) : lsum (λ _, 0 : BR) l = 0.
Proof. induction l as [|a l IH]; [done|]. rewrite lsum_cons, IH. ring. Qed.

Lemma lsum_add {A} (φ ψ : A → BR) l :
  lsum (λ a, φ a + ψ a) l = lsum φ l + lsum ψ l.
Proof.
  induction l as [|a l IH]; rewrite ?lsum_nil, ?lsum_cons, ?IH; ring.
Qed.

Lemma lsum_scale {A} (c : BR) (φ : A → BR) l :
  lsum (λ a, c * φ a) l = c * lsum φ l.
Proof.
  induction l as [|a l IH]; rewrite ?lsum_nil, ?lsum_cons, ?IH; ring.
Qed.

Lemma lsum_swap {A B} (h : A → B → BR) l1 l2 :
  lsum (λ a, lsum (λ b, h a b) l2) l1 = lsum (λ b, lsum (λ a, h a b) l1) l2.
Proof.
  induction l1 as [|a l1 IH].
  - cbn. by rewrite lsum_zero.
  - rewrite lsum_cons, IH, <- lsum_add. by apply lsum_ext.
Qed.
End SumTheory.

Section FreeModuleTheory.
Context {BR : base_ring} `{Countable K}.
Add Ring BR_ring_free : (R_ring BR).
Local Open Scope base_ring_scope.
Implicit Types (x y : gmap K BR) (φ ψ : K → BR) (k : K) (c : BR).

Lemma eval_empty φ : eval φ (∅ : gmap K BR) = 0.
Proof. unfold eval. by rewrite map_to_list_empty. Qed.

Lemma eval_insert φ x k c :
  x !! k = None → eval φ (<[k := c]> x) = c * φ k + eval φ x.
Proof.
  intros Hk. unfold eval.
  by rewrite (lsum_perm _ _ _ (map_to_list_insert x k c Hk)).
Qed.

Lemma eval_delete φ x k c :
  x !! k = Some c → eval φ x = c * φ k + eval φ (delete k x).
Proof.
  intros Hk. unfold eval.
  by rewrite <- (lsum_perm _ _ _ (map_to_list_delete x k c Hk)).
Qed.

Lemma eval_ext_dom φ ψ x :
  (∀ k c, x !! k = Some c → φ k = ψ k) → eval φ x = eval ψ x.
Proof.
  intros Hx. apply lsum_ext_in. intros [k c] Hkc%elem_of_map_to_list.
  cbn. by rewrite (Hx k c).
Qed.

Lemma eval_ext φ ψ x : (∀ k, φ k = ψ k) → eval φ x = eval ψ x.
Proof. intros Hx. apply eval_ext_dom. auto. Qed.

Lemma eval_zero x : eval (λ _, 0) x = 0.
Proof.
  unfold eval. rewrite (lsum_ext _ (λ _, 0)) by (intros; cbn; ring).
  apply lsum_zero.
Qed.

Lemma eval_add φ ψ x : eval (λ k, φ k + ψ k) x = eval φ x + eval ψ x.
Proof.
  unfold eval. rewrite <- lsum_add. apply lsum_ext; intros; cbn; ring.
Qed.

Lemma eval_scale c φ x : eval (λ k, c * φ k) x = c * eval φ x.
Proof.
  unfold eval. rewrite <- lsum_scale. apply lsum_ext; intros; cbn; ring.
Qed.

Lemma eval_scale_r c φ x : eval (λ k, φ k * c) x = eval φ x * c.
Proof.
  rewrite (eval_ext _ (λ k, c * φ k)) by (intros; ring).
  rewrite eval_scale. ring.
Qed.

Lemma coeff_eval x j : coeff x j = eval (indicator j) x.
Proof.
  unfold coeff. induction x as [|k c x Hk IH] using map_ind.
  - by rewrite lookup_empty, eval_empty.
  - rewrite eval_insert, <- IH, lookup_insert by done.
    unfold indicator. destruct (decide (k = j)) as [->|]; cbn.
    + rewrite Hk. cbn. ring.
    + ring.
Qed.

Lemma eval_indicator_scaled x j c :
  eval (λ k, indicator j k * c) x = coeff x j * c.
Proof. by rewrite eval_scale_r, coeff_eval. Qed.

Lemma coeff_lookup x k c : x !! k = Some c → coeff x k = c.
Proof. unfold coeff. by intros ->. Qed.

Lemma coeff_lookup_None x k : x !! k = None → coeff x k = 0.
Proof. unfold coeff. by intros ->. Qed.

(** Two elements with the same coefficients are the same dictionary. *)
Lemma elt_ext_coeff x y :
  wf x → wf y → (∀ k, coeff x k = coeff y k) → x = y.
Proof.
  intros Hx Hy Hxy. apply map_eq. intros k.
  specialize (Hxy k). specialize (Hx k). specialize (Hy k).
  unfold coeff in Hxy.
  destruct (x !! k), (y !! k); cbn in Hxy; congruence.
Qed.

Lemma elt_ext x y :
  wf x → wf y → (∀ φ, eval φ x = eval φ y) → x = y.
Proof.
  intros Hx Hy Hxy. apply elt_ext_coeff; [done..|].
  intros k. by rewrite !coeff_eval.
Qed.

Lemma wf_empty : wf (∅ : gmap K BR).
Proof. intros k. by rewrite lookup_empty. Qed.

Lemma wf_add_term x kc : wf x → wf (add_term x kc).
Proof.
  intros Hx j. unfold add_term. case_decide as Hv.
  - rewrite lookup_delete. case_decide; [done|apply Hx].
  - rewrite lookup_insert. case_decide; [congruence|apply Hx].
Qed.

Lemma eval_add_term φ x kc :
  eval φ (add_term x kc) = eval φ x + kc.2 * φ kc.1.
Proof.
  destruct kc as [k c]. unfold add_term, coeff. cbn.
  destruct (x !! k) as [v|] eqn:Hk; cbn.
  - rewrite (eval_delete φ x k v Hk). case_decide as Hv.
    + transitivity ((v + c) * φ k + eval φ (delete k x)); [rewrite Hv|]; ring.
    + rewrite <- insert_delete_eq, eval_insert by apply lookup_delete_eq. ring.
  - case_decide as Hv.
    + rewrite delete_id by done.
      transitivity ((0 + c) * φ k + eval φ x); [rewrite Hv|]; ring.
    + rewrite eval_insert by done. ring.
Qed.

Lemma wf_foldl_add_term x (l : list (K * BR)) :
  wf x → wf (foldl add_term x l).
Proof.
  revert x. induction l as [|kc l IH]; intros x Hx; [done|].
  cbn. apply IH. by apply wf_add_term.
Qed.

Lemma wf_sum_of_terms (l : list (K * BR)) : wf (sum_of_terms l).
Proof. apply wf_foldl_add_term, wf_empty. Qed.

Lemma eval_foldl_add_term φ x (l : list (K * BR)) :
  eval φ (foldl add_term x l)
  = eval φ x + lsum (λ kc : K * BR, kc.2 * φ kc.1) l.
Proof.
  revert x. induction l as [|kc l IH]; intros x; cbn [foldl].
  - rewrite lsum_nil. ring.
  - rewrite IH, eval_add_term, lsum_cons. ring.
Qed.

Lemma eval_sum_of_terms φ (l : list (K * BR)) :
  eval φ (sum_of_terms l) = lsum (λ kc : K * BR, kc.2 * φ kc.1) l.
Proof.
  unfold sum_of_terms. rewrite eval_foldl_add_term, eval_empty. ring.
Qed.

Lemma coeff_sum_of_terms (l : list (K * BR)) j :
  coeff (sum_of_terms l) j
  = lsum (λ kc : K * BR, if decide (kc.1 = j) then kc.2 else 0) l.
Proof.
  rewrite coeff_eval, eval_sum_of_terms. apply lsum_ext.
  intros [k c]. unfold indicator. cbn. case_decide; ring.
Qed.

(** A well-formed dictionary is the sum of its own terms. *)
Lemma sum_of_terms_map_to_list x : wf x → sum_of_terms (map_to_list x) = x.
Proof.
  intros Hx. apply elt_ext; [apply wf_sum_of_terms|done|].
  intros φ. by rewrite eval_sum_of_terms.
Qed.

Lemma wf_term k c : wf (term k c).
Proof. apply wf_sum_of_terms. Qed.

Lemma wf_monomial k : wf (monomial k : gmap K BR).
Proof. apply wf_sum_of_terms. Qed.

Lemma eval_term φ k c : eval φ (term k c) = c * φ k.
Proof. unfold term. rewrite eval_sum_of_terms. cbn. ring. Qed.

Lemma eval_monomial φ k : eval φ (monomial k : gmap K BR) = φ k.
Proof. unfold monomial. rewrite eval_term. ring. Qed.

Lemma eval_sum_of_monomials φ (l : list K) :
  eval φ (sum_of_monomials l) = lsum φ l.
Proof.
  unfold sum_of_monomials. rewrite eval_sum_of_terms, lsum_fmap.
  apply lsum_ext. intros. cbn. ring.
Qed.

Lemma wf_linear_combination (l : list (gmap K BR * BR)) :
  wf (linear_combination l).
Proof. apply wf_sum_of_terms. Qed.

Lemma eval_linear_combination φ (l : list (gmap K BR * BR)) :
  eval φ (linear_combination l)
  = lsum (λ yc : gmap K BR * BR, yc.2 * eval φ yc.1) l.
Proof.
  unfold linear_combination. rewrite eval_sum_of_terms, lsum_bind.
  apply lsum_ext. intros [y c]. unfold scaled_terms. cbn.
  rewrite lsum_fmap. unfold eval. rewrite <- lsum_scale.
  apply lsum_ext. intros. cbn. ring.
Qed.

(** The keys of a sum of terms are among the keys of the terms. *)
Lemma lookup_foldl_add_term x (l : list (K * BR)) k :
  is_Some (foldl add_term x l !! k) → is_Some (x !! k) ∨ k ∈ l.*1.
Proof.
  revert x. induction l as [|[j c] l IH]; intros x; cbn [foldl]; [auto|].
  intros Hk. rewrite fmap_cons, elem_of_cons. cbn.
  destruct (IH _ Hk) as [Hk'|Hk']; [|auto]. clear Hk.
  unfold add_term in Hk'. cbn in Hk'. case_decide.
  - rewrite lookup_delete in Hk'. case_decide; [by destruct Hk'|auto].
  - rewrite lookup_insert in Hk'. case_decide; auto.
Qed.

Lemma lookup_sum_of_terms (l : list (K * BR)) k :
  is_Some (sum_of_terms l !! k) → k ∈ l.*1.
Proof.
  intros [Hk|Hk]%lookup_foldl_add_term; [|done].
  rewrite lookup_empty in Hk. by destruct Hk.
Qed.
End FreeModuleTheory.

Section MorphismTheory.
Context {BR : base_ring} `{Countable K1} `{Countable K2}.
Add Ring BR_ring_mor : (R_ring BR).
Local Open Scope base_ring_scope.

Lemma wf_module_morphism (f : K1 → gmap K2 BR) (x : gmap K1 BR) :
  wf (module_morphism f x).
Proof. apply wf_linear_combination. Qed.

Lemma eval_module_morphism (φ : K2 → BR) (f : K1 → gmap K2 BR) (x : gmap K1 BR) :
  eval φ (module_morphism f x) = eval (λ k, eval φ (f k)) x.
Proof.
  unfold module_morphism. by rewrite eval_linear_combination, lsum_fmap.
Qed.

Lemma eval_kmap (f : K1 → K2) `{!Inj (=) (=) f} (φ : K2 → BR) (x : gmap K1 BR) :
  eval φ (kmap f x) = eval (λ k, φ (f k)) x.
Proof.
  unfold eval. rewrite (lsum_perm _ _ _ (map_to_list_kmap f x)), lsum_fmap.
  by apply lsum_ext; intros [].
Qed.

Lemma wf_kmap (f : K1 → K2) `{!Inj (=) (=) f} (x : gmap K1 BR) :
  wf x → wf (kmap f x : gmap K2 BR).
Proof.
  intros Hx k Hk. apply (lookup_kmap_Some f) in Hk as (j & -> & Hj).
  by apply (Hx j).
Qed.
Lemma eval_swap (h : K1 → K2 → BR)
    (x : gmap K1 BR) (y : gmap K2 BR) :
  eval (λ k1, eval (λ k2, h k1 k2) y) x = eval (λ k2, eval (λ k1, h k1 k2) x) y.
Proof.
  unfold eval.
  rewrite (lsum_ext _ (λ kc : K1 * BR,
             lsum (λ ld : K2 * BR, kc.2 * (ld.2 * h kc.1 ld.1)) (map_to_list y)))
    by (intros; cbn; by rewrite lsum_scale).
  rewrite lsum_swap. apply lsum_ext. intros [k2 d]. cbn.
  rewrite <- lsum_scale. apply lsum_ext. intros [k1 e]. cbn. ring.
Qed.
End MorphismTheory.

(** ** Tensor products *)

Section TensorTheory.
Context {BR : base_ring} `{Countable K}.
Add Ring BR_ring_tensor : (R_ring BR).
Local Open Scope base_ring_scope.
Implicit Types (φ ψ : list K → BR) (t s : list K) (p n : nat).
Implicit Types (Δ : gmap K BR → gmap (list K) BR).

Lemma teval_nil φ : teval φ [] = φ [].
Proof. unfold teval. cbn. ring. Qed.

Lemma teval_cons φ (a : gmap (list K) BR) l :
  teval φ (a :: l) = eval (λ s, teval (λ u, φ (s ++ u)) l) a.
Proof.
  unfold teval, eval. cbn [tensor_terms]. rewrite lsum_bind.
  apply lsum_ext. intros [s c]. rewrite lsum_bind, <- lsum_scale.
  apply lsum_ext. intros [u d]. cbn. ring.
Qed.

Lemma teval_ext φ ψ l : (∀ t, φ t = ψ t) → teval φ l = teval ψ l.
Proof. intros Hφ. apply lsum_ext. intros [t c]. cbn. by rewrite Hφ. Qed.

Lemma eval_tensor φ (l : list (element K)) (z : gmap (list K) BR) :
  tensor l = Ok z → eval φ z = teval φ (flat <$> l).
Proof.
  destruct l as [|e l]; [done|]. intros [= <-]. apply eval_sum_of_terms.
Qed.

Lemma wf_tensor (l : list (element K)) (z : gmap (list K) BR) :
  tensor l = Ok z → wf z.
Proof.
  destruct l as [|e l]; [done|]. intros [= <-]. apply wf_sum_of_terms.
Qed.

Lemma eval_flat_Plain φ (x : gmap K BR) :
  eval φ (flat (Plain x)) = eval (λ k, φ [k]) x.
Proof. cbn. apply (eval_kmap (λ k : K, [k])). Qed.

Lemma pull_ext Δ p φ ψ t :
  (∀ s, φ s = ψ s) → pull Δ p φ t = pull Δ p ψ t.
Proof.
  intros Hφ. unfold pull. destruct (t !! p); [|done].
  apply eval_ext. intros. apply Hφ.
Qed.

Lemma eval_coproduct_at_on_basis Δ p φ t :
  eval φ (coproduct_at_on_basis Δ p t) = pull Δ p φ t.
Proof.
  unfold coproduct_at_on_basis, pull. destruct (t !! p) as [i|].
  - rewrite eval_sum_of_terms. change (lsum _ (tensor_terms ?l)) with (teval φ l).
    rewrite teval_cons, eval_monomial, teval_cons. apply eval_ext. intros s.
    rewrite teval_cons, eval_monomial, teval_nil. by rewrite app_nil_r.
  - apply eval_monomial.
Qed.

Lemma eval_coproduct_at Δ p φ (y : gmap (list K) BR) :
  eval φ (coproduct_at Δ p y) = eval (pull Δ p φ) y.
Proof.
  unfold coproduct_at. rewrite eval_module_morphism.
  apply eval_ext. intros. apply eval_coproduct_at_on_basis.
Qed.

Lemma wf_coproduct_at Δ (p : nat) (y : gmap (list K) BR) :
  wf (coproduct_at Δ p y).
Proof. apply wf_module_morphism. Qed.

(** Iterating the pullback. *)
Lemma iter_pull_ext Δ p n φ ψ t :
  (∀ s, φ s = ψ s) → Nat.iter n (pull Δ p) φ t = Nat.iter n (pull Δ p) ψ t.
Proof.
  intros Hφ. revert t. induction n as [|n IH]; intros t; cbn; [done|].
  by apply pull_ext.
Qed.

Lemma iter_pull_succ_r Δ p n φ t :
  Nat.iter (S n) (pull Δ p) φ t = Nat.iter n (pull Δ p) (pull Δ p φ) t.
Proof. by rewrite Nat.iter_succ_r. Qed.

Lemma eval_iter_coproduct_at Δ p n φ (y : gmap (list K) BR) :
  eval φ (Nat.iter n (coproduct_at Δ p) y) = eval (Nat.iter n (pull Δ p) φ) y.
Proof.
  revert φ. induction n as [|n IH]; intros φ; [done|].
  transitivity (eval (Nat.iter n (pull Δ p) (pull Δ p φ)) y).
  - by rewrite Nat.iter_succ, eval_coproduct_at, IH.
  - apply eval_ext. intros t. symmetry. apply iter_pull_succ_r.
Qed.
End TensorTheory.

(** ** Coassociativity *)

Section Coassociativity.
Context {BR : base_ring} `{Countable K}.
Implicit Types (φ ψ : list K → BR) (t s r u : list K) (p q n a b c : nat).

Variable Δ : gmap K BR → gmap (list K) BR.

#[local] Instance eval_proper {K'} `{Countable K'} :
  Proper (pointwise_relation K' eq ==> eq ==> eq) (eval (BR:=BR) (K:=K')).
Proof. intros φ ψ Hφ x ? <-. by apply eval_ext. Qed.

#[local] Instance pull_proper p :
  Proper (pointwise_relation _ eq ==> pointwise_relation _ eq) (pull Δ p).
Proof. intros φ ψ Hφ t. by apply pull_ext. Qed.

#[local] Instance iter_pull_proper p n :
  Proper (pointwise_relation _ eq ==> pointwise_relation _ eq)
    (Nat.iter n (pull Δ p)).
Proof. intros φ ψ Hφ t. by apply iter_pull_ext. Qed.

Lemma iter_pull_succ_r_pw p n φ :
  pointwise_relation _ eq
    (Nat.iter (S n) (pull Δ p) φ) (Nat.iter n (pull Δ p) (pull Δ p φ)).
Proof. intros t. apply iter_pull_succ_r. Qed.

(** The pullback at a position inside a prefix ignores the suffix. *)
Lemma pull_app_l p φ r t :
  p < length t → pull Δ p (λ s, φ (s ++ r)) t = pull Δ p φ (t ++ r).
Proof.
  intros Hp. unfold pull.
  rewrite (lookup_app_l t r) by done.
  rewrite take_app_le, drop_app_le by lia.
  destruct (t !! p); [|done].
  apply eval_ext. intros s. by rewrite <- !app_assoc.
Qed.

(** The pullback at a position beyond a prefix ignores the prefix. *)
Lemma pull_app_r q φ s u :
  pull Δ (length s + q) φ (s ++ u) = pull Δ q (λ u, φ (s ++ u)) u.
Proof.
  unfold pull.
  rewrite lookup_app_r by lia.
  replace (length s + q - length s) with q by lia.
  rewrite take_app_ge, drop_app_ge by lia.
  replace (length s + q - length s) with q by lia.
  replace (S (length s + q) - length s) with (S q) by lia.
  destruct (u !! q); [|done].
  apply eval_ext. intros w. by rewrite <- !app_assoc.
Qed.

Hypothesis Δ_arity : arity2 Δ.

Lemma pull_0_cons φ i r :
  pull Δ 0 φ (i :: r) = eval (λ s, φ (s ++ r)) (Δ (monomial i)).
Proof. unfold pull. cbn. by rewrite drop_0. Qed.

Lemma pull_0_nil φ : pull Δ 0 φ [] = φ [].
Proof. done. Qed.

(** Pullbacks at distant positions commute. *)
Lemma pull_pull_comm q φ :
  pointwise_relation _ eq
    (pull Δ 0 (pull Δ (S (S q)) φ)) (pull Δ (S q) (pull Δ 0 φ)).
Proof.
  intros [|i r]; [done|].
  rewrite pull_0_cons.
  rewrite (eval_ext_dom _ (λ s, pull Δ q (λ u, φ (s ++ u)) r)); last first.
  { intros s c Hs. rewrite <- (pull_app_r q φ s r).
    by rewrite (Δ_arity (monomial i) s). }
  unfold pull at 2. cbn [lookup list_lookup take drop].
  change ((i :: r) !! S q) with (r !! q).
  unfold pull at 1. destruct (r !! q) as [k|].
  - rewrite eval_swap. apply eval_ext. intros w.
    by rewrite <- app_comm_cons, pull_0_cons.
  - by rewrite pull_0_cons.
Qed.

Hypothesis Δ_coassoc : coassociative Δ.

Lemma pull_pull_01 φ :
  pointwise_relation _ eq (pull Δ 0 (pull Δ 1 φ)) (pull Δ 0 (pull Δ 0 φ)).
Proof.
  intros [|i r]; [done|].
  rewrite !pull_0_cons.
  rewrite (eval_ext_dom _ (pull Δ 1 (λ s, φ (s ++ r)))); last first.
  { intros s c Hs. symmetry. apply pull_app_l.
    rewrite (Δ_arity (monomial i) s); [lia|done]. }
  rewrite <- eval_coproduct_at, <- Δ_coassoc, eval_coproduct_at.
  apply eval_ext_dom. intros s c Hs. apply pull_app_l.
  rewrite (Δ_arity (monomial i) s); [lia|done].
Qed.

(** Generalised coassociativity: after [m] coproducts on the left, one
    more coproduct at any position is one more coproduct on the left. *)
Lemma generalised_coassociativity m p φ (x : gmap K BR) :
  p ≤ S m →
  eval (Nat.iter m (pull Δ 0) (pull Δ p φ)) (Δ x)
  = eval (Nat.iter (S m) (pull Δ 0) φ) (Δ x).
Proof.
  revert p φ. induction m as [|m IH]; intros p φ Hp.
  - destruct p as [|[|p]]; [done| |lia].
    cbn. by rewrite <- !eval_coproduct_at, Δ_coassoc.
  - destruct p as [|[|q]].
    + by rewrite (iter_pull_succ_r_pw 0 (S m) φ).
    + rewrite (iter_pull_succ_r_pw 0 m (pull Δ 1 φ)), pull_pull_01.
      by rewrite <- (iter_pull_succ_r_pw 0 m), <- (iter_pull_succ_r_pw 0 (S m)).
    + rewrite (iter_pull_succ_r_pw 0 m (pull Δ (S (S q)) φ)), pull_pull_comm.
      rewrite IH by lia.
      by rewrite <- (iter_pull_succ_r_pw 0 (S m)).
Qed.
(** Coproducts right of position [a] are absorbed on the left. *)
Lemma iter_pull_merge a b c φ (x : gmap K BR) :
  a ≤ c →
  eval (Nat.iter c (pull Δ 0) (Nat.iter b (pull Δ (S a)) φ)) (Δ x)
  = eval (Nat.iter (c + b) (pull Δ 0) φ) (Δ x).
Proof.
  intros Hc. revert c φ Hc. induction b as [|b IH]; intros c φ Hc.
  - by rewrite Nat.add_0_r.
  - rewrite (iter_pull_succ_r_pw (S a) b φ), IH by done.
    rewrite generalised_coassociativity by lia.
    by replace (c + S b) with (S (c + b)) by lia.
Qed.

(** [a] coproducts on the left of a non-empty tuple read the functional
    on the tuples that are [a] longer only. *)
Lemma iter_pull_local a φ ψ t :
  t ≠ [] →
  (∀ s, length s = length t + a → φ s = ψ s) →
  Nat.iter a (pull Δ 0) φ t = Nat.iter a (pull Δ 0) ψ t.
Proof.
  revert t. induction a as [|a IH]; intros t Ht Hφ.
  - cbn. apply Hφ. lia.
  - rewrite !Nat.iter_succ. destruct t as [|i r]; [done|].
    rewrite !pull_0_cons. apply eval_ext_dom. intros s c Hs.
    assert (length s = 2) as Hlen by by apply (Δ_arity (monomial i)).
    apply IH.
    + destruct s; [done|]. done.
    + intros s' Hs'. apply Hφ. rewrite length_app in Hs'. cbn. lia.
Qed.

Lemma iter_pull_app_r b φ s u :
  Nat.iter b (pull Δ 0) (λ u, φ (s ++ u)) u
  = Nat.iter b (pull Δ (length s)) φ (s ++ u).
Proof.
  revert φ. induction b as [|b IH]; intros φ; [done|].
  rewrite !iter_pull_succ_r, <- IH. apply iter_pull_ext. intros u'.
  by rewrite <- (pull_app_r 0), Nat.add_0_r.
Qed.

Lemma iter_pull_app_l a φ r t :
  t ≠ [] →
  Nat.iter a (pull Δ 0) (λ s, φ (s ++ r)) t = Nat.iter a (pull Δ 0) φ (t ++ r).
Proof.
  revert t. induction a as [|a IH]; intros t Ht; [done|].
  rewrite !Nat.iter_succ. destruct t as [|i r']; [done|].
  rewrite <- app_comm_cons, !pull_0_cons. apply eval_ext_dom. intros s c Hs.
  assert (length s = 2) as Hlen by by apply (Δ_arity (monomial i)).
  rewrite IH, app_assoc; [done|]. by destruct s.
Qed.

Lemma coproduct_naive_succ n (x : gmap K BR) :
  coproduct_naive Δ (S n) x = Tensor (Nat.iter n (coproduct_at Δ 0) (Δ x)).
Proof.
  induction n as [|n IH]; [done|].
  change (coproduct_naive Δ (S (S n)) x)
    with (match coproduct_naive Δ (S n) x with
          | Plain y => Tensor (Δ y)
          | Tensor t => Tensor (coproduct_at Δ 0 t)
          end).
  by rewrite IH, Nat.iter_succ.
Qed.

Lemma eval_flat_naive a φ (i : K) :
  eval φ (flat (coproduct_naive Δ a (monomial i)))
  = Nat.iter a (pull Δ 0) φ [i].
Proof.
  destruct a as [|a].
  - cbn [coproduct_naive]. by rewrite eval_flat_Plain, eval_monomial.
  - rewrite coproduct_naive_succ. cbn [flat].
    rewrite eval_iter_coproduct_at, Nat.iter_succ, pull_0_cons.
    apply eval_ext. intros s. by rewrite app_nil_r.
Qed.

(** The tensor of [a] coproducts of [B[i]] and [b] coproducts of [B[j]],
    as [a] coproducts on the left and [b] at position [a + 1] of
    [B[i] # B[j]]. *)
Lemma teval_split a b φ (i j : K) :
  teval φ [flat (coproduct_naive Δ a (monomial i));
           flat (coproduct_naive Δ b (monomial j))]
  = Nat.iter a (pull Δ 0) (Nat.iter b (pull Δ (S a)) φ) [i; j].
Proof.
  rewrite teval_cons, eval_flat_naive.
  transitivity
    (Nat.iter a (pull Δ 0) (λ s, Nat.iter b (pull Δ (S a)) φ (s ++ [j])) [i]).
  - apply iter_pull_local; [done|]. intros s Hs.
    rewrite teval_cons, eval_flat_naive.
    rewrite (iter_pull_ext _ _ _ _ (λ u, φ (s ++ u)))
      by (intros; by rewrite teval_nil, app_nil_r).
    rewrite iter_pull_app_r. cbn in Hs. by rewrite Hs.
  - by rewrite iter_pull_app_l.
Qed.
End Coassociativity.

(** ** The iterated coproduct *)

Section IteratedCoproduct.
Context {BR : base_ring} `{Countable K}.
Implicit Types (parent : coalgebra_parent BR K) (x : gmap K BR) (n : Z).

Lemma rmapM_Ok {A B} (g : A → result B) (h : A → B) (l : list A) :
  (∀ a, a ∈ l → g a = Ok (h a)) → rmapM g l = Ok (h <$> l).
Proof.
  induction l as [|a l IH]; intros Hl; [done|].
  cbn. rewrite (Hl a), IH by (try intros; set_solver). done.
Qed.

Lemma apply_multilinear_morphism_Ok
    (f : gmap K BR → gmap K BR → result (gmap (list K) BR))
    (F : list K → gmap (list K) BR) (y : gmap (list K) BR) :
  (∀ t c, y !! t = Some c →
     ∃ i j r, t = i :: j :: r ∧ f (monomial i) (monomial j) = Ok (F t)) →
  apply_multilinear_morphism f y = Ok (module_morphism F y).
Proof.
  intros Hy. unfold apply_multilinear_morphism.
  rewrite (rmapM_Ok _ (λ mc : list K * BR, (F mc.1, mc.2))); [done|].
  intros [t c] Htc%elem_of_map_to_list.
  destruct (Hy t c Htc) as (i & j & r & -> & Hf). cbn [fst snd].
  by rewrite Hf.
Qed.

Lemma coproduct_iterated_neg parent n x :
  (n < 0)%Z → coproduct_iterated parent n x = Raise ValueError.
Proof. intros Hn. simp coproduct_iterated. by destruct (decide (n < 0)%Z). Qed.

Lemma coproduct_iterated_0 parent x :
  coproduct_iterated parent 0 x = Ok (Plain x).
Proof. by simp coproduct_iterated. Qed.

Lemma coproduct_iterated_1 parent x :
  coproduct_iterated parent 1 x
  = y ← element_coproduct parent x ;;; Ok (Tensor y).
Proof. by simp coproduct_iterated. Qed.

(** The split of [n - 1] coproducts between the two factors. *)
Lemma split_sizes n :
  (2 ≤ n)%Z →
  let fn := ((n - 1) `div` 2)%Z in
  let cn := (if decide (n `mod` 2 ≠ 0)%Z then (n - 1) `div` 2 else n `div` 2)%Z in
  (0 ≤ fn < n ∧ 0 ≤ cn < n ∧ cn = n - 1 - fn)%Z.
Proof.
  intros Hn fn cn. subst fn cn.
  case_decide; Z.to_euclidean_division_equations; lia.
Qed.

Lemma coproduct_iterated_ge_2 parent n x :
  (2 ≤ n)%Z →
  coproduct_iterated parent n x
  = (let fn := ((n - 1) `div` 2)%Z in
     let cn := (n - 1 - (n - 1) `div` 2)%Z in
     let split := λ a b,
       ra ← coproduct_iterated parent fn a ;;;
       rb ← coproduct_iterated parent cn b ;;;
       tensor [ra; rb] in
     y ← element_coproduct parent x ;;;
     t ← apply_multilinear_morphism split y ;;;
     Ok (Tensor t)).
Proof.
  intros Hn. simp coproduct_iterated.
  destruct (decide (n < 0)%Z); [lia|]. cbn.
  destruct (decide (n = 0)%Z); [lia|]. cbn.
  destruct (decide (n = 1)%Z); [lia|]. cbn.
  case_decide.
  - by replace (n - 1 - (n - 1) `div` 2)%Z with ((n - 1) `div` 2)%Z
      by (Z.to_euclidean_division_equations; lia).
  - by replace (n - 1 - (n - 1) `div` 2)%Z with (n `div` 2)%Z
      by (Z.to_euclidean_division_equations; lia).
Qed.

Variable parent : coalgebra_parent BR K.
Variable Δ : gmap K BR → gmap (list K) BR.
Hypothesis parent_coproduct : coproduct parent = Some Δ.
Hypothesis Δ_arity : arity2 Δ.
Hypothesis Δ_coassoc : coassociative Δ.

Lemma element_coproduct_Ok x : element_coproduct parent x = Ok (Δ x).
Proof. unfold element_coproduct. by rewrite parent_coproduct. Qed.

(** The balanced recursion computes the naive iterated coproduct. *)
Lemma coproduct_iterated_eq_naive n x :
  (0 ≤ n)%Z →
  coproduct_iterated parent n x = Ok (coproduct_naive Δ (Z.to_nat n) x).
Proof.
  intros Hn. remember (Z.to_nat n) as m eqn:Hm.
  revert n x Hn Hm. induction m as [m IH] using lt_wf_ind. intros n x Hn ->.
  destruct (decide (n = 0)%Z) as [->|]; [apply coproduct_iterated_0|].
  destruct (decide (n = 1)%Z) as [->|].
  { by rewrite coproduct_iterated_1, element_coproduct_Ok. }
  rewrite coproduct_iterated_ge_2 by lia. cbv zeta.
  destruct (split_sizes n) as (Hfn & Hcn & Hsum); [lia|].
  rewrite <- Hsum. clear Hsum.
  set (fn := ((n - 1) `div` 2)%Z) in *.
  set (cn := (if decide (n `mod` 2 ≠ 0)%Z then _ else _)%Z) in *.
  assert (Z.to_nat n = S (Z.to_nat fn + Z.to_nat cn)) as Hsplit.
  { subst fn cn. revert Hfn Hcn.
    case_decide; intros; Z.to_euclidean_division_equations; lia. }
  rewrite element_coproduct_Ok. cbn [rbind].
  set (F := λ t : list K,
         match t with
         | i :: j :: _ =>
             sum_of_terms
               (tensor_terms [flat (coproduct_naive Δ (Z.to_nat fn) (monomial i));
                              flat (coproduct_naive Δ (Z.to_nat cn) (monomial j))])
         | _ => ∅
         end).
  rewrite (apply_multilinear_morphism_Ok _ F); last first.
  { intros t c Ht.
    assert (length t = 2) as Hlen by (apply (Δ_arity x); by rewrite Ht).
    destruct t as [|i [|j [|]]]; try done. exists i, j, [].
    split; [done|].
    rewrite (IH (Z.to_nat fn) ltac:(lia) fn (monomial i) ltac:(lia) eq_refl).
    cbn [rbind].
    by rewrite (IH (Z.to_nat cn) ltac:(lia) cn (monomial j) ltac:(lia) eq_refl). }
  cbn [rbind]. rewrite Hsplit, coproduct_naive_succ. do 2 f_equal.
  apply elt_ext.
  { apply wf_module_morphism. }
  { destruct (Z.to_nat fn + Z.to_nat cn) as [|k] eqn:Hk; [lia|].
    rewrite Nat.iter_succ. apply wf_coproduct_at. }
  intros φ.
  rewrite eval_module_morphism, eval_iter_coproduct_at.
  rewrite <- (iter_pull_merge Δ Δ_arity Δ_coassoc (Z.to_nat fn)) by done.
  apply eval_ext_dom. intros t c Ht.
  assert (length t = 2) as Hlen by (apply (Δ_arity x); by rewrite Ht).
  destruct t as [|i [|j [|]]]; try done. unfold F.
  rewrite eval_sum_of_terms. by apply teval_split.
Qed.
End IteratedCoproduct.

(** ** Coproducts and counits defined on the basis *)

Section OnBasis.
Context {BR : base_ring} `{Countable K}.
Add Ring BR_ring_basis : (R_ring BR).
Local Open Scope base_ring_scope.
Implicit Types (f : K → gmap (list K) BR) (x : gmap K BR).

Lemma module_morphism_monomial `{Countable K'} (g : K → gmap K' BR) (i : K) :
  wf (g i) → module_morphism g (monomial i) = g i.
Proof.
  intros Hg. apply elt_ext; [apply wf_module_morphism|done|].
  intros φ. by rewrite eval_module_morphism, eval_monomial.
Qed.

Lemma module_morphism_sum_of_terms `{Countable K'} (g : K → gmap K' BR)
    (l : list (K * BR)) :
  module_morphism g (sum_of_terms l)
  = linear_combination ((λ ic : K * BR, (g ic.1, ic.2)) <$> l).
Proof.
  apply elt_ext; [apply wf_module_morphism|apply wf_linear_combination|].
  intros φ.
  by rewrite eval_module_morphism, eval_sum_of_terms,
    eval_linear_combination, lsum_fmap.
Qed.

(** The keys of a linear extension are keys of the values on the basis. *)
Lemma lookup_module_morphism `{Countable K'} (g : K → gmap K' BR) x (t : K') :
  is_Some (module_morphism g x !! t) → ∃ i, is_Some (g i !! t).
Proof.
  intros Ht%lookup_sum_of_terms.
  apply list_elem_of_fmap in Ht as ([t' c] & -> & Ht).
  apply list_elem_of_bind in Ht as ([y d] & Ht & Hy).
  apply list_elem_of_fmap in Hy as ([i e] & [= -> ->] & _).
  unfold scaled_terms in Ht. cbn in Ht.
  apply list_elem_of_fmap in Ht as ([t c'] & [= -> ->] & Ht).
  apply elem_of_map_to_list in Ht. exists i. cbn. by rewrite Ht.
Qed.

Lemma arity2_module_morphism f :
  (∀ i t, is_Some (f i !! t) → length t = 2%nat) →
  arity2 (module_morphism f).
Proof.
  intros Hf x t Ht. apply lookup_module_morphism in Ht as [i Hi].
  by apply (Hf i).
Qed.

(** A linear extension is coassociative once it is on the basis. *)
Lemma coassociative_module_morphism f :
  (∀ i, coproduct_at (module_morphism f) 0 (f i)
        = coproduct_at (module_morphism f) 1 (f i)) →
  coassociative (module_morphism f).
Proof.
  intros Hf x. apply elt_ext; [apply wf_coproduct_at..|]. intros φ.
  rewrite !eval_coproduct_at, !eval_module_morphism.
  apply eval_ext. intros i. by rewrite <- !eval_coproduct_at, Hf.
Qed.
End OnBasis.

(** ** Coalgebras with basis: the coproduct, the counit and their iterates *)

Section CoalgebraClaims.
Context {BR : base_ring} `{Countable K}.
Add Ring BR_ring_coalg : (R_ring BR).
Implicit Types (parent : coalgebra_parent BR K) (x : gmap K BR) (n : Z).

(** Claim C1. For a parent whose coproduct [Δ] takes its values in
    [A # A] and is coassociative, and for [n >= 2],
    [coproduct_iterated(n)] is the balanced recursion: one coproduct,
    then [coproduct_iterated((n-1)//2)] on the left factor and
    [coproduct_iterated(n-1 - (n-1)//2)] on the right one through
    [apply_multilinear_morphism]; and its result is the naive iterated
    coproduct, [n] coproducts applied one after the other on the left. *)
Theorem coproduct_iterated_balanced_is_naive parent
    (Δ : gmap K BR → gmap (list K) BR) n x :
  coproduct parent = Some Δ →
  arity2 Δ →
  coassociative Δ →
  (2 ≤ n)%Z →
  coproduct_iterated parent n x
  = (t ← apply_multilinear_morphism
           (λ a b,
              ra ← coproduct_iterated parent ((n - 1) `div` 2) a ;;;
              rb ← coproduct_iterated parent (n - 1 - (n - 1) `div` 2) b ;;;
              tensor [ra; rb])
           (Δ x) ;;;
     Ok (Tensor t))
  ∧ coproduct_iterated parent n x = Ok (coproduct_naive Δ (Z.to_nat n) x).
Proof.
  intros HΔ Harity Hcoassoc Hn. split.
  - rewrite coproduct_iterated_ge_2 by done. cbv zeta.
    by rewrite (element_coproduct_Ok parent Δ HΔ).
  - apply coproduct_iterated_eq_naive; [done..|lia].
Qed.

(** Claim C2. When the parent implements [coproduct_on_basis], the lazy
    attribute [coproduct] is the linear extension of it: it sends the
    basis element [B[i]] to [coproduct_on_basis(i)] and a linear
    combination [Σ c_i * B[i]] to [Σ c_i * coproduct_on_basis(i)]. *)
Theorem coproduct_extends_coproduct_on_basis parent
    (on_basis : K → gmap (list K) BR) :
  coproduct_on_basis parent = Some on_basis →
  (∀ i, wf (on_basis i)) →
  ∃ Δ, coproduct parent = Some Δ
       ∧ (∀ x, Δ x = module_morphism on_basis x)
       ∧ (∀ i, Δ (monomial i) = on_basis i)
       ∧ (∀ l : list (K * BR),
            Δ (sum_of_terms l)
            = linear_combination ((λ ic : K * BR, (on_basis ic.1, ic.2)) <$> l)).
Proof.
  intros Hparent Hwf. exists (module_morphism on_basis).
  split; [|split; [done|split]].
  - unfold coproduct. by rewrite Hparent.
  - intros i. by apply module_morphism_monomial.
  - apply module_morphism_sum_of_terms.
Qed.

(** Claim C6. When the parent implements [counit_on_basis], the lazy
    attribute [counit] is the linear extension of it with values in the
    base ring; when it does not and the parent has [counit_by_coercion],
    [counit] is [counit_by_coercion]. *)
Theorem counit_extends_counit_on_basis parent :
  (∀ on_basis : K → BR,
     counit_on_basis parent = Some on_basis →
     ∃ ε, counit parent = Some ε
          ∧ (∀ x, ε x = module_morphism_to_ring on_basis x)
          ∧ (∀ i, ε (monomial i) = on_basis i)
          ∧ (∀ l : list (K * BR),
               ε (sum_of_terms l)
               = lsum (λ ic : K * BR, rmul BR ic.2 (on_basis ic.1)) l))
  ∧ (∀ by_coercion : gmap K BR → BR,
       counit_on_basis parent = None →
       counit_by_coercion parent = Some by_coercion →
       counit parent = Some by_coercion).
Proof.
  split.
  - intros on_basis Hparent. exists (module_morphism_to_ring on_basis).
    split; [|split; [done|split]].
    + unfold counit. by rewrite Hparent.
    + intros i. apply eval_monomial.
    + intros l. apply eval_sum_of_terms.
  - intros by_coercion Hnone Hsome. unfold counit. by rewrite Hnone, Hsome.
Qed.

Lemma rbind_not_raise {A B} (e : exn) (r : result A) (f : A → result B) :
  r ≠ Raise e → (∀ a, f a ≠ Raise e) → rbind r f ≠ Raise e.
Proof. destruct r as [a|e']; cbn; [auto|congruence]. Qed.

Lemma rmapM_not_raise {A B} (e : exn) (g : A → result B) (l : list A) :
  (∀ a, g a ≠ Raise e) → rmapM g l ≠ Raise e.
Proof.
  intros Hg. induction l as [|a l IH]; [done|]. cbn.
  apply rbind_not_raise; [done|]. intros b.
  apply rbind_not_raise; [done|]. done.
Qed.

Lemma coproduct_iterated_not_ValueError parent n x :
  (0 ≤ n)%Z → coproduct_iterated parent n x ≠ Raise ValueError.
Proof.
  intros Hn. remember (Z.to_nat n) as m eqn:Hm.
  revert n x Hn Hm. induction m as [m IH] using lt_wf_ind. intros n x Hn ->.
  destruct (decide (n = 0)%Z) as [->|]; [by rewrite coproduct_iterated_0|].
  assert (element_coproduct parent x ≠ Raise ValueError) as Hx.
  { unfold element_coproduct. by destruct (coproduct parent). }
  destruct (decide (n = 1)%Z) as [->|].
  { rewrite coproduct_iterated_1. by apply rbind_not_raise. }
  rewrite coproduct_iterated_ge_2 by lia. cbv zeta.
  destruct (split_sizes n) as (Hfn & _ & _); [lia|].
  apply rbind_not_raise; [done|]. intros y.
  apply rbind_not_raise; [|done].
  apply rbind_not_raise; [|done].
  apply rmapM_not_raise. intros [[|i [|j r]] c]; cbn [fst snd]; try done.
  apply rbind_not_raise; [|done].
  apply rbind_not_raise.
  { apply (IH (Z.to_nat ((n - 1) `div` 2)) ltac:(lia)
             ((n - 1) `div` 2)%Z _ ltac:(lia) eq_refl). }
  intros ra. apply rbind_not_raise; [|done].
  apply (IH (Z.to_nat (n - 1 - (n - 1) `div` 2)) ltac:(lia)
           (n - 1 - (n - 1) `div` 2)%Z _ ltac:(lia) eq_refl).
Qed.

(** Claim C9. [coproduct_iterated(n)] raises [ValueError] exactly when
    [n < 0]; [coproduct_iterated(0)] returns the element itself and
    [coproduct_iterated(1)] its coproduct. *)
Theorem coproduct_iterated_ValueError_iff parent n x :
  (coproduct_iterated parent n x = Raise ValueError ↔ (n < 0)%Z)
  ∧ coproduct_iterated parent 0 x = Ok (Plain x)
  ∧ coproduct_iterated parent 1 x
    = (y ← element_coproduct parent x ;;; Ok (Tensor y)).
Proof.
  split; [split|split].
  - intros Hraise. destruct (decide (n < 0)%Z); [done|].
    by destruct (coproduct_iterated_not_ValueError parent n x); [lia|].
  - apply coproduct_iterated_neg.
  - apply coproduct_iterated_0.
  - apply coproduct_iterated_1.
Qed.
End CoalgebraClaims.

(** ** Algebras with basis: inverses, Cartesian products, tensor products *)

Section AlgebraClaims.
Context {BR : base_ring} `{Countable K}.
Add Ring BR_ring_alg : (R_ring BR).
Local Open Scope base_ring_scope.
Implicit Types (A : algebra_parent BR K) (sets : list (algebra_parent BR K)).
Implicit Types (t : list K).

(** *** Coefficients of a tensor of elements of the factors *)

Lemma teval_zero (l : list (gmap (list K) BR)) : teval (λ _, 0) l = 0.
Proof.
  unfold teval. rewrite (lsum_ext _ (λ _, 0)) by (intros; cbn; ring).
  apply lsum_zero.
Qed.

Lemma teval_scale (c : BR) (φ : list K → BR) (l : list (gmap (list K) BR)) :
  teval (λ t, c * φ t) l = c * teval φ l.
Proof.
  unfold teval. rewrite <- lsum_scale. apply lsum_ext; intros; cbn; ring.
Qed.

Lemma indicator_cons (k0 k : K) (t u : list K) :
  indicator (BR := BR) (k0 :: t) (k :: u) = indicator k0 k * indicator t u.
Proof.
  unfold indicator.
  destruct (decide (k = k0)) as [->|Hk], (decide (u = t)) as [->|Hu];
    case_decide as Hc; try congruence; ring.
Qed.

Lemma teval_indicator_plain (l : list (gmap K BR)) t :
  teval (indicator t) (flat <$> (Plain <$> l)) = tensor_coeff l t.
Proof.
  revert t. induction l as [|a l IH]; intros t.
  - cbn [fmap list_fmap]. rewrite teval_nil. unfold indicator.
    destruct t; by case_decide.
  - rewrite !fmap_cons, teval_cons, eval_flat_Plain.
    destruct t as [|k0 t]; cbn [tensor_coeff].
    + rewrite (eval_ext _ (λ _, 0)); [apply eval_zero|].
      intros k. rewrite (teval_ext _ (λ _, 0)); [apply teval_zero|done].
    + rewrite (eval_ext _ (λ k, indicator k0 k * tensor_coeff l t)).
      { apply eval_indicator_scaled. }
      intros k. rewrite <- IH, <- teval_scale.
      apply teval_ext. intros u. apply indicator_cons.
Qed.

Lemma coeff_tensor_plain (l : list (gmap K BR)) (z : gmap (list K) BR) t :
  tensor (Plain <$> l) = Ok z → coeff z t = tensor_coeff l t.
Proof.
  intros Hz. rewrite coeff_eval, (eval_tensor _ _ _ Hz).
  apply teval_indicator_plain.
Qed.

(** *** Products *)

Lemma eval_product A (φ : K → BR) (a b : gmap K BR) :
  eval φ (product A a b)
  = eval (λ l, eval (λ r, eval φ (product_on_basis A l r)) b) a.
Proof.
  unfold product. rewrite eval_linear_combination, lsum_bind.
  unfold eval at 3. apply lsum_ext. intros [l c].
  rewrite lsum_bind. cbn [fst snd]. unfold eval at 2.
  rewrite <- lsum_scale. apply lsum_ext. intros [r d].
  unfold eval. cbn. ring.
Qed.

(** The product of two basis elements is [product_on_basis]. *)
Lemma product_monomial A (i j : K) :
  wf (product_on_basis A i j) →
  product A (monomial i) (monomial j) = product_on_basis A i j.
Proof.
  intros Hwf. apply elt_ext; [apply wf_linear_combination|done|].
  intros φ. by rewrite eval_product, !eval_monomial.
Qed.

Lemma lookup_zip3 {X Y W} (a : list X) (b : list Y) (c : list W)
    (j : nat) ea eb ec :
  a !! j = Some ea → b !! j = Some eb → c !! j = Some ec →
  zip3 a b c !! j = Some (ea, eb, ec).
Proof.
  revert b c j.
  induction a as [|ea' a IH]; intros [|eb' b] [|ec' c] [|j]; try done.
  - by intros [= ->] [= ->] [= ->].
  - cbn. apply IH.
Qed.

Lemma length_zip3 {X Y W} (a : list X) (b : list Y) (c : list W) :
  length b = length a → length c = length a →
  length (zip3 a b c) = length a.
Proof.
  revert b c. induction a as [|ea a IH]; intros [|eb b] [|ec c]; try done.
  cbn. intros [= Hb] [= Hc]. by rewrite IH.
Qed.

(** Claim C3. On a tensor product of the algebras [A_1, ..., A_k],
    [product_on_basis((x_1..x_k), (y_1..y_k))] is the tensor of the
    products [A_j.monomial(x_j) * A_j.monomial(y_j)] in the factors: its
    coefficient at a tuple is the product of their coefficients. *)
Theorem tensor_product_on_basis_componentwise sets (t1 t2 : list K) :
  sets ≠ [] →
  length t1 = length sets →
  length t2 = length sets →
  ∃ (factors : list (gmap K BR)) (z : gmap (list K) BR),
    length factors = length sets
    ∧ (∀ (j : nat) A (x1 x2 : K),
         sets !! j = Some A → t1 !! j = Some x1 → t2 !! j = Some x2 →
         factors !! j = Some (product A (monomial x1) (monomial x2)))
    ∧ tensor_product_on_basis sets t1 t2 = tensor (Plain <$> factors)
    ∧ tensor_product_on_basis sets t1 t2 = Ok z
    ∧ wf z
    ∧ ∀ t, coeff z t = tensor_coeff factors t.
Proof.
  intros Hsets Ht1 Ht2.
  set (factors := (λ mxy : algebra_parent BR K * K * K,
                     product mxy.1.1 (monomial mxy.1.2) (monomial mxy.2))
                  <$> zip3 sets t1 t2).
  assert (tensor_product_on_basis sets t1 t2 = tensor (Plain <$> factors))
    as Heq.
  { unfold tensor_product_on_basis, factors. by rewrite <- list_fmap_compose. }
  assert (length factors = length sets) as Hlen.
  { unfold factors. by rewrite length_fmap, length_zip3. }
  assert (∃ z : gmap (list K) BR, tensor (Plain <$> factors) = Ok z)
    as [z Hz].
  { destruct factors; [by destruct sets|]. cbn. eauto. }
  exists factors, z. repeat split; try done.
  - intros j A x1 x2 HA Hx1 Hx2. unfold factors.
    by rewrite list_lookup_fmap, (lookup_zip3 _ _ _ _ A x1 x2).
  - by rewrite Heq.
  - by apply (wf_tensor _ _ Hz).
  - intros t. by apply coeff_tensor_plain.
Qed.
(** *** Units of tensor products and of Cartesian products *)

Lemma rmapM_call_one_basis sets (ones : list K) :
  Forall2 (λ A o, one_basis A = Method o) sets ones →
  rmapM (λ A, call (one_basis A)) sets = Ok ones.
Proof.
  induction 1 as [|A o sets ones HA _ IH]; [done|].
  cbn. rewrite HA. cbn. by rewrite IH.
Qed.

Lemma forallb_hasattr sets :
  forallb (λ A, hasattr (one_basis A)) sets = true
  ↔ ∀ A, A ∈ sets → one_basis A ≠ Missing.
Proof.
  rewrite forallb_forall. split.
  - intros Hall A HA%list_elem_of_In Hmissing.
    specialize (Hall A HA). by rewrite Hmissing in Hall.
  - intros Hall A HA%list_elem_of_In. specialize (Hall A HA).
    by destruct (one_basis A).
Qed.

Lemma forallb_hasattr_false sets :
  forallb (λ A, hasattr (one_basis A)) sets = false
  → ∃ A, A ∈ sets ∧ one_basis A = Missing.
Proof.
  induction sets as [|B sets IH]; [done|]. cbn.
  destruct (one_basis B) eqn:HB; cbn.
  - intros _. exists B. split; [by left|done].
  - intros (A & HA & Hmissing)%IH. exists A. split; [by right|done].
  - intros (A & HA & Hmissing)%IH. exists A. split; [by right|done].
Qed.

Lemma forallb_implemented sets :
  forallb (λ A, hasattr (one_basis A)
                && is_not_NotImplemented (one_basis A)) sets = true
  ↔ ∀ A, A ∈ sets → ∃ o, one_basis A = Method o.
Proof.
  rewrite forallb_forall. split.
  - intros Hall A HA%list_elem_of_In. specialize (Hall A HA).
    destruct (one_basis A); try done. eauto.
  - intros Hall A HA%list_elem_of_In. by destruct (Hall A HA) as [o ->].
Qed.

Lemma Forall2_one_basis_elem_of sets (ones : list K) A :
  Forall2 (λ A o, one_basis A = Method o) sets ones →
  A ∈ sets → ∃ o, one_basis A = Method o.
Proof.
  intros Hall HA. apply list_elem_of_lookup in HA as [j Hj].
  destruct (Forall2_lookup_l _ _ _ _ _ Hall Hj) as (o & _ & Ho). eauto.
Qed.

(** Claim C4. On a tensor product whose factors all provide
    [one_basis], [one_basis()] is the tuple of the [one_basis()] of the
    factors, and the one of the tensor product is the basis element
    indexed by that tuple. *)
Theorem tensor_one_basis_tuple sets (ones : list K) :
  Forall2 (λ A o, one_basis A = Method o) sets ones →
  tensor_one_basis sets = Ok ones
  ∧ tensor_one sets = Ok (monomial ones).
Proof.
  intros Hall.
  assert (tensor_one_basis sets = Ok ones) as Hone.
  { unfold tensor_one_basis.
    rewrite (proj2 (forallb_hasattr sets)).
    - by apply rmapM_call_one_basis.
    - intros A HA Hmissing.
      destruct (Forall2_one_basis_elem_of sets ones A Hall HA) as [o Ho].
      congruence. }
  split; [done|]. unfold tensor_one. by rewrite Hone.
Qed.

Local Ltac solve_indicator_case :=
  exfalso;
  repeat match goal with
         | Hc : _ ∧ _ |- _ => destruct Hc
         | Hc : (_, _) = (_, _) |- _ => inversion Hc; clear Hc; subst
         | Hc : ¬ (_ ∧ _) |- _ => apply Hc; split
         end;
  try lia; try done; congruence.

Lemma lsum_indicator_zip (ones : list K) (s i : nat) (k : K) :
  lsum (BR := BR) (indicator (i, k)) (zip (seq s (length ones)) ones)
  = if decide (s ≤ i ∧ ones !! (i - s)%nat = Some k) then 1 else 0.
Proof.
  revert s. induction ones as [|o ones IH]; intros s.
  - cbn. case_decide as Hc; [by destruct Hc|done].
  - cbn [length seq zip zip_with]. rewrite lsum_cons, IH.
    unfold indicator at 1.
    destruct (decide (s ≤ i)) as [Hle|Hgt].
    + destruct (decide (i = s)) as [->|Hne].
      * replace (s - s)%nat with 0%nat by lia. cbn [lookup list_lookup].
        repeat case_decide; try ring; solve_indicator_case.
      * replace (i - s)%nat with (S (i - S s)) by lia.
        cbn [lookup list_lookup].
        repeat case_decide; try ring; solve_indicator_case.
    + repeat case_decide; try ring; solve_indicator_case.
Qed.

(** Claim C5. On a Cartesian product whose factors all implement
    [one_basis], [one_from_cartesian_product_of_one_basis()] is the sum
    over the positions [i] of the basis elements indexed by
    [(i, A_i.one_basis())], built by [sum_of_monomials] alone, and the
    lazy attribute [one] resolves to this method. *)
Theorem cartesian_one_from_one_basis sets (ones : list K) :
  Forall2 (λ A o, one_basis A = Method o) sets ones →
  ∃ z : gmap (nat * K) BR,
    one_from_cartesian_product_of_one_basis sets = Ok z
    ∧ z = sum_of_monomials (zip (seq 0 (length sets)) ones)
    ∧ (∀ i k, coeff z (i, k) = if decide (ones !! i = Some k) then 1 else 0)
    ∧ cartesian_one sets = OneFromCartesianProductOfOneBasis.
Proof.
  intros Hall. eexists. split; [|split; [reflexivity|split]].
  - unfold one_from_cartesian_product_of_one_basis.
    by rewrite (rmapM_call_one_basis sets ones Hall).
  - intros i k. rewrite coeff_eval, eval_sum_of_monomials.
    rewrite (Forall2_length _ _ _ Hall), lsum_indicator_zip.
    replace (i - 0)%nat with i by lia.
    destruct (decide (ones !! i = Some k)).
    + by rewrite decide_True by (split; [lia|done]).
    + by rewrite decide_False by (intros [_ ?]; done).
  - unfold cartesian_one. rewrite (proj2 (forallb_implemented sets)); [done|].
    intros A HA. by apply (Forall2_one_basis_elem_of sets ones).
Qed.

Lemma rmapM_call_TypeError sets :
  (∀ A, A ∈ sets → one_basis A ≠ Missing) →
  (∃ A, A ∈ sets ∧ one_basis A = NotImplemented) →
  rmapM (λ A, call (one_basis A)) sets = Raise (A := list K) TypeError.
Proof.
  induction sets as [|B sets IH]; intros Hall (A & HA & HNI).
  { by apply elem_of_nil in HA. }
  cbn. destruct (one_basis B) as [| |o] eqn:HB; cbn.
  - by destruct (Hall B); [left|].
  - done.
  - rewrite IH; [done| |].
    + intros C HC. apply Hall. by right.
    + apply elem_of_cons in HA as [->|HA]; [congruence|eauto].
Qed.

(** Claim C10. On a tensor product, [one_basis()] raises
    [NotImplementedError] exactly when a factor has no [one_basis]
    attribute: a factor whose [one_basis] is present but
    [NotImplemented] passes the check (and the call of it then fails with
    a [TypeError]), whereas the lazy attribute [one] of a Cartesian
    product resolves to [one_from_cartesian_product_of_one_basis] only
    when [one_basis] is a real method of every factor. *)
Theorem tensor_one_basis_NotImplementedError_iff sets :
  (tensor_one_basis sets = Raise NotImplementedError
   ↔ ∃ A, A ∈ sets ∧ one_basis A = Missing)
  ∧ ((∀ A, A ∈ sets → one_basis A ≠ Missing) →
     (∃ A, A ∈ sets ∧ one_basis A = NotImplemented) →
     tensor_one_basis sets = Raise TypeError
     ∧ cartesian_one sets = OneGeneric)
  ∧ (cartesian_one sets = OneFromCartesianProductOfOneBasis
     ↔ ∀ A, A ∈ sets → ∃ o, one_basis A = Method o).
Proof.
  split; [|split].
  - unfold tensor_one_basis.
    destruct (forallb _ sets) eqn:Hall.
    + split.
      * intros Hraise. exfalso. revert Hraise. apply rmapM_not_raise.
        intros A. by destruct (one_basis A).
      * intros (A & HA & Hmissing).
        by destruct (proj1 (forallb_hasattr sets) Hall A HA).
    + split; [intros _|done]. by apply forallb_hasattr_false.
  - intros Hall HNI. split.
    + unfold tensor_one_basis. rewrite (proj2 (forallb_hasattr sets) Hall).
      by apply rmapM_call_TypeError.
    + unfold cartesian_one.
      destruct (forallb _ sets) eqn:Himpl; [|done].
      destruct HNI as (A & HA & HNI).
      destruct (proj1 (forallb_implemented sets) Himpl A HA) as [o Ho].
      congruence.
  - unfold cartesian_one. rewrite <- forallb_implemented.
    by destruct (forallb _ sets).
Qed.
(** *** Inverses *)

Lemma size_1_lookup (x : gmap K BR) (k : K) (c : BR) :
  size x = 1%nat → x !! k = Some c → x = {[k := c]}.
Proof.
  intros Hsize Hk.
  rewrite <- (insert_id x k c Hk), <- insert_delete_eq.
  assert (delete k x = ∅) as ->; [|by rewrite insert_empty].
  apply map_size_empty_inv. rewrite map_size_delete, Hk. lia.
Qed.

Lemma singleton_iff (x : gmap K BR) (k : K) :
  size x = 1%nat ∧ is_Some (x !! k) ↔ ∃ c, x = {[k := c]}.
Proof.
  split.
  - intros [Hsize [c Hc]]. exists c. by apply size_1_lookup.
  - intros [c ->]. by rewrite map_size_singleton, lookup_singleton_eq.
Qed.

(** The method as one conditional on the dictionary, which it returns
    as it was. *)
Lemma invert_unfold (I : inversion BR) A (one : K) (x : gmap K BR) :
  one_basis A = Method one →
  __invert__ I A x
  = (if bool_decide (size x = 1%nat) && bool_decide (is_Some (x !! one))
     then c ← (match x !! one with
               | Some c => Ok c
               | None => Raise KeyError
               end) ;;;
          c' ← inverse I c ;;; Ok (term_of_inverse I one c')
     else Raise ValueError, x).
Proof.
  intros Hone.
  unfold __invert__, dbind, dret, dict_len, dict_contains, dict_getitem.
  rewrite Hone. cbn.
  destruct (bool_decide (size x = 1%nat)); cbn; [|done].
  destruct (bool_decide (is_Some (x !! one))); cbn; [|done].
  destruct (x !! one) as [c|]; cbn; [|done]. by destruct (inverse I c).
Qed.

Lemma invert_singleton (I : inversion BR) A (one : K) (c : BR) :
  one_basis A = Method one →
  __invert__ I A {[one := c]}
  = (c' ← inverse I c ;;; Ok (term_of_inverse I one c'), {[one := c]}).
Proof.
  intros Hone. rewrite (invert_unfold I A one _ Hone).
  rewrite map_size_singleton, lookup_singleton_eq.
  by rewrite !bool_decide_true by eauto.
Qed.

Lemma invert_not_singleton (I : inversion BR) A (one : K) (x : gmap K BR) :
  one_basis A = Method one →
  (∀ c, x ≠ {[one := c]}) →
  __invert__ I A x = (Raise ValueError, x).
Proof.
  intros Hone Hx. rewrite (invert_unfold I A one _ Hone).
  assert (bool_decide (size x = 1%nat)
          && bool_decide (is_Some (x !! one)) = false) as ->; [|done].
  apply andb_false_iff.
  destruct (decide (size x = 1%nat)) as [Hsize|Hsize].
  - right. apply bool_decide_false. intros [c Hc].
    by apply (Hx c), size_1_lookup.
  - left. by apply bool_decide_false.
Qed.

(** When [~c] stays in the base ring, the term of its result is the
    [term] of the parent. *)
Lemma term_of_inverse_in_ring (rinv : BR → option BR) (k : K) (c' : BR) :
  term_of_inverse (in_ring rinv) k c' = term k c'.
Proof.
  unfold term_of_inverse, term, sum_of_terms. cbn.
  unfold add_term, coeff. cbn. rewrite lookup_empty. cbn.
  replace (0 + c') with c' by ring.
  case_bool_decide; case_decide; done.
Qed.

End AlgebraClaims.

(** ** Categories of Cartesian and tensor products *)

(** Claim C7. Over every base ring [R], the extra super categories of
    [AlgebrasWithBasis(R).CartesianProducts()] and of
    [AlgebrasWithBasis(R).TensorProducts()] are the one-element list of the
    base category [AlgebrasWithBasis(R)]: Cartesian and tensor products of
    algebras with basis are again algebras with basis. *)
Theorem extra_super_categories_AlgebrasWithBasis (R : base_ring) :
  CartesianProducts_extra_super_categories
    (CartesianProducts (AlgebrasWithBasis R))
  = [AlgebrasWithBasis R]
  ∧ TensorProducts_extra_super_categories
      (TensorProducts (AlgebrasWithBasis R))
    = [AlgebrasWithBasis R].
Proof. split; reflexivity. Qed.

(** ** The claims on the concrete parents *)

Section Examples.
Implicit Types (φ : list nat → integers).

Lemma grouplike_arity : arity2 (module_morphism grouplike_on_basis).
Proof.
  apply arity2_module_morphism. intros i t Ht.
  apply lookup_sum_of_terms in Ht. cbn in Ht.
  by apply list_elem_of_singleton in Ht as ->.
Qed.

Lemma grouplike_wf (i : nat) : wf (grouplike_on_basis i).
Proof. apply wf_monomial. Qed.

Lemma grouplike_coassociative :
  coassociative (module_morphism grouplike_on_basis).
Proof.
  apply coassociative_module_morphism. intros i.
  apply elt_ext; [apply wf_coproduct_at..|]. intros φ.
  rewrite !eval_coproduct_at. unfold grouplike_on_basis at 2 4.
  rewrite !eval_monomial. unfold pull. cbn [lookup list_lookup take drop].
  rewrite (module_morphism_monomial grouplike_on_basis i (grouplike_wf i)).
  unfold grouplike_on_basis. by rewrite !eval_monomial.
Qed.

(** The docstring of [coproduct]: [A.coproduct(a)] is [B[a] # B[a]]. *)
Example coproduct_grouplike :
  element_coproduct grouplike (monomial 7%nat) = Ok (monomial [7; 7]%nat).
Proof. vm_compute. reflexivity. Qed.

Example coproduct_iterated_grouplike_3 :
  coproduct_iterated grouplike 3 sample_element
  = Ok (Tensor (sum_of_terms [([1; 1; 1; 1]%nat, 2%Z); ([3; 3; 3; 3]%nat, 5%Z)])).
Proof. vm_compute. reflexivity. Qed.

(** The shape of the docstring of [coproduct_iterated(2)]: every way of
    splitting the degree between three factors. *)
Example coproduct_iterated_divided_power_2 :
  coproduct_iterated divided_power 2 (monomial 2%nat)
  = Ok (Tensor (sum_of_monomials
                  [[0; 0; 2]; [0; 1; 1]; [0; 2; 0];
                   [1; 0; 1]; [1; 1; 0]; [2; 0; 0]]%nat)).
Proof. vm_compute. reflexivity. Qed.

Example coproduct_iterated_divided_power_5 :
  coproduct_iterated divided_power 5 (sum_of_terms [(3%nat, 2%Z); (1%nat, (-1)%Z)])
  = Ok (coproduct_naive (module_morphism divided_power_on_basis) 5
          (sum_of_terms [(3%nat, 2%Z); (1%nat, (-1)%Z)])).
Proof. vm_compute. reflexivity. Qed.

Example coproduct_iterated_negative :
  coproduct_iterated grouplike (-1) sample_element = Raise ValueError.
Proof. reflexivity. Qed.

Lemma coproduct_iterated_balanced_is_naive_witness :
  coproduct grouplike = Some (module_morphism grouplike_on_basis)
  ∧ (2 ≤ 3)%Z
  ∧ coproduct_iterated grouplike 3 sample_element
    = Ok (coproduct_naive (module_morphism grouplike_on_basis) 3 sample_element).
Proof.
  split; [reflexivity|]. split; [lia|].
  exact (proj2 (coproduct_iterated_balanced_is_naive grouplike
                  (module_morphism grouplike_on_basis) 3 sample_element
                  eq_refl grouplike_arity grouplike_coassociative
                  ltac:(lia))).
Defined.

Lemma coproduct_extends_coproduct_on_basis_witness :
  coproduct_on_basis grouplike = Some grouplike_on_basis
  ∧ ∃ Δ, coproduct grouplike = Some Δ
         ∧ (∀ x, Δ x = module_morphism grouplike_on_basis x)
         ∧ (∀ i, Δ (monomial i) = grouplike_on_basis i)
         ∧ (∀ l : list (nat * integers),
              Δ (sum_of_terms l)
              = linear_combination
                  ((λ ic : nat * integers, (grouplike_on_basis ic.1, ic.2)) <$> l)).
Proof.
  split; [reflexivity|].
  exact (coproduct_extends_coproduct_on_basis grouplike grouplike_on_basis
           eq_refl grouplike_wf).
Defined.

Lemma counit_extends_counit_on_basis_witness :
  (∃ ε, counit grouplike = Some ε
        ∧ (∀ x, ε x = module_morphism_to_ring (λ _, 1%Z) x)
        ∧ (∀ i, ε (monomial i) = 1%Z)
        ∧ (∀ l : list (nat * integers),
             ε (sum_of_terms l) = lsum (λ ic : nat * integers, (ic.2 * 1)%Z) l))
  ∧ counit by_coercion_only = Some (module_morphism_to_ring (λ _, 1%Z)).
Proof.
  split.
  - exact (proj1 (counit_extends_counit_on_basis grouplike) (λ _, 1%Z) eq_refl).
  - exact (proj2 (counit_extends_counit_on_basis by_coercion_only)
             (module_morphism_to_ring (λ _, 1%Z)) eq_refl eq_refl).
Defined.

(** The docstring of [counit]: [A.counit(a)] is [1]. *)
Example counit_grouplike :
  (λ ε : gmap nat integers → integers, ε sample_element) <$> counit grouplike
  = Some 7%Z.
Proof. vm_compute. reflexivity. Qed.
(** The docstring of [TensorProducts.ParentMethods.product_on_basis],
    with the words [a], [b], [c] as [[0]], [[1]], [[2]]. *)
Example tensor_product_on_basis_free_algebra :
  tensor_product_on_basis three_copies [[0]; [1]; [2]]%nat [[2]; [1]; [0]]%nat
  = Ok (monomial [[0; 2]; [1; 1]; [2; 0]]%nat).
Proof. vm_compute. reflexivity. Qed.

Lemma tensor_product_on_basis_componentwise_witness :
  three_copies ≠ []
  ∧ ∃ (factors : list (gmap (list nat) integers))
      (z : gmap (list (list nat)) integers),
      length factors = 3%nat
      ∧ (∀ (j : nat) A (x1 x2 : list nat),
           three_copies !! j = Some A →
           [[0]; [1]; [2]]%nat !! j = Some x1 →
           [[2]; [1]; [0]]%nat !! j = Some x2 →
           factors !! j = Some (product A (monomial x1) (monomial x2)))
      ∧ tensor_product_on_basis three_copies
          [[0]; [1]; [2]]%nat [[2]; [1]; [0]]%nat
        = tensor (Plain <$> factors)
      ∧ tensor_product_on_basis three_copies
          [[0]; [1]; [2]]%nat [[2]; [1]; [0]]%nat
        = Ok z
      ∧ wf z
      ∧ ∀ t, coeff z t = tensor_coeff factors t.
Proof.
  split; [done|].
  exact (tensor_product_on_basis_componentwise three_copies
           [[0]; [1]; [2]]%nat [[2]; [1]; [0]]%nat
           ltac:(done) eq_refl eq_refl).
Defined.

Lemma three_copies_one_basis :
  Forall2 (λ (A : algebra_parent integers (list nat)) o, one_basis A = Method o)
    three_copies [[]; []; []].
Proof. repeat constructor. Qed.

(** [B.one_basis()] is [(word: , word: , word: )]. *)
Lemma tensor_one_basis_tuple_witness :
  tensor_one_basis three_copies = Ok [[]; []; []]
  ∧ tensor_one three_copies = Ok (monomial [[]; []; []]).
Proof.
  exact (tensor_one_basis_tuple three_copies [[]; []; []]
           three_copies_one_basis).
Defined.

(** [B.one()] is [B[(0, word: )] + B[(1, word: )] + B[(2, word: )]]. *)
Lemma cartesian_one_from_one_basis_witness :
  ∃ z : gmap (nat * list nat) integers,
    one_from_cartesian_product_of_one_basis three_copies = Ok z
    ∧ z = sum_of_monomials (zip (seq 0 3) [[]; []; []])
    ∧ (∀ i k, coeff z (i, k)
              = if decide ([[]; []; []] !! i = Some k) then 1%Z else 0%Z)
    ∧ cartesian_one three_copies = OneFromCartesianProductOfOneBasis.
Proof.
  exact (cartesian_one_from_one_basis three_copies [[]; []; []]
           three_copies_one_basis).
Defined.

Example one_from_cartesian_product_of_one_basis_free_algebra :
  one_from_cartesian_product_of_one_basis three_copies
  = Ok (sum_of_monomials [(0%nat, []); (1%nat, []); (2%nat, [])]).
Proof. vm_compute. reflexivity. Qed.

(** A factor whose [one_basis] is [NotImplemented], and a factor without
    the attribute. *)
Example tensor_one_basis_NotImplemented :
  tensor_one_basis [free_algebra; without_one_basis] = Raise TypeError
  ∧ cartesian_one [free_algebra; without_one_basis] = OneGeneric.
Proof. split; reflexivity. Qed.

Example tensor_one_basis_Missing :
  tensor_one_basis [free_algebra; no_one_basis_attribute]
  = Raise NotImplementedError.
Proof. reflexivity. Qed.

Lemma tensor_one_basis_NotImplementedError_iff_witness :
  tensor_one_basis [free_algebra; without_one_basis] = Raise TypeError
  ∧ cartesian_one [free_algebra; without_one_basis] = OneGeneric.
Proof.
  apply (proj1 (proj2 (tensor_one_basis_NotImplementedError_iff
                         [free_algebra; without_one_basis]))).
  - intros A [->|[->|[]%elem_of_nil]%elem_of_cons]%elem_of_cons; done.
  - exists without_one_basis. split; [|done]. by right; left.
Defined.

(** The docstring of [__invert__]: [~(2*B[word: ])] is [1/2*B[word: ]],
    and the generator [a] cannot be inverted. *)
Example invert_two :
  __invert__ QQ_inversion free_algebra_QQ (term [] (QQ_of 2 1))
  = (Ok (term [] (QQ_of 1 2)), term [] (QQ_of 2 1)).
Proof. vm_compute. reflexivity. Qed.

Example invert_generator :
  __invert__ QQ_inversion free_algebra_QQ (monomial [0%nat])
  = (Raise ValueError, monomial [0%nat]).
Proof. vm_compute. reflexivity. Qed.

Example invert_sum :
  __invert__ QQ_inversion free_algebra_QQ (sum_of_monomials [[]; [0%nat]])
  = (Raise ValueError, sum_of_monomials [[]; [0%nat]]).
Proof. vm_compute. reflexivity. Qed.

Example invert_zero :
  __invert__ QQ_inversion free_algebra_QQ ∅ = (Raise ValueError, ∅).
Proof. vm_compute. reflexivity. Qed.

(** The warning of the docstring: over [ZZ], inverting twice the unit
    gives [1/2] times the unit, although [1/2] is not in the base ring. *)
Example invert_two_over_ZZ :
  __invert__ ZZ_inversion free_algebra (term [] 2%Z)
  = (Ok {[ [] := QQ_of 1 2 ]}, term [] 2%Z).
Proof. vm_compute. reflexivity. Qed.


End Examples.

(** * Further properties *)

(** ** The iterated coproduct without coassociativity *)

Section IteratedCoproductShape.
Context {BR : base_ring} `{Countable K}.
Implicit Types (parent : coalgebra_parent BR K) (x : gmap K BR) (n : Z).
Implicit Types (Δ : gmap K BR → gmap (list K) BR).

(** The indices of [l_1 # ... # l_n] are the concatenations of an index
    of each operand. *)
Lemma elem_of_tensor_terms (l : list (gmap (list K) BR)) (t : list K) :
  t ∈ (tensor_terms l).*1 →
  ∃ ks, t = concat ks ∧ Forall2 (λ a k, is_Some (a !! k)) l ks.
Proof.
  revert t. induction l as [|a l IH]; intros t Ht.
  - cbn in Ht. apply list_elem_of_singleton in Ht as ->.
    exists []. split; [done|constructor].
  - apply list_elem_of_fmap in Ht as ([t' c] & -> & Ht).
    cbn [tensor_terms] in Ht.
    apply list_elem_of_bind in Ht as ([s d] & Ht & Hs).
    apply list_elem_of_bind in Ht as ([u e] & Ht & Hu).
    apply list_elem_of_singleton in Ht as [= -> ->].
    destruct (IH u) as (ks & -> & Hks).
    { apply list_elem_of_fmap. by exists (u, e). }
    exists (s :: ks). split; [done|]. constructor; [|done].
    apply elem_of_map_to_list in Hs. by rewrite Hs.
Qed.

Lemma lookup_flat_Plain x (t : list K) :
  is_Some (flat (Plain x) !! t) → length t = 1%nat.
Proof.
  intros [c Hc]. cbn in Hc.
  by apply (lookup_kmap_Some (λ k : K, [k])) in Hc as (k & -> & _).
Qed.

Lemma lookup_tensor_pair (ea eb : element K) (v : gmap (list K) BR)
    (a b : nat) (t : list K) :
  tensor [ea; eb] = Ok v →
  (∀ s, is_Some (flat ea !! s) → length s = a) →
  (∀ s, is_Some (flat eb !! s) → length s = b) →
  is_Some (v !! t) → length t = (a + b)%nat.
Proof.
  intros Hv Ha Hb Ht.
  assert (v = sum_of_terms (tensor_terms [flat ea; flat eb])) as ->.
  { unfold tensor in Hv. cbn [fmap list_fmap] in Hv. congruence. }
  apply lookup_sum_of_terms, elem_of_tensor_terms in Ht as (ks & -> & Hks).
  apply Forall2_cons_inv_l in Hks as (s & ks' & Hs & Hks & ->).
  apply Forall2_cons_inv_l in Hks as (u & ks'' & Hu & Hks & ->).
  apply Forall2_nil_inv_l in Hks as ->.
  cbn. rewrite length_app, app_nil_r. by rewrite (Ha s), (Hb u).
Qed.

(** With a coproduct that takes its values in [A # A],
    [coproduct_iterated(n)] returns for every [n >= 0], and every index
    of the result has [n + 1] components. *)
Lemma coproduct_iterated_returns parent Δ n x :
  coproduct parent = Some Δ →
  arity2 Δ →
  (0 ≤ n)%Z →
  ∃ e, coproduct_iterated parent n x = Ok e
       ∧ (∀ t, is_Some (flat e !! t) → length t = S (Z.to_nat n))
       ∧ ((2 ≤ n)%Z →
          e = Tensor (module_morphism
                        (split_value parent ((n - 1) `div` 2)
                           (n - 1 - (n - 1) `div` 2)) (Δ x))).
Proof.
  intros HΔ Harity Hn. remember (Z.to_nat n) as m eqn:Hm.
  revert n x Hn Hm. induction m as [m IH] using lt_wf_ind. intros n x Hn ->.
  destruct (decide (n = 0)%Z) as [->|].
  { exists (Plain x). rewrite coproduct_iterated_0.
    split; [done|split; [|lia]]. apply lookup_flat_Plain. }
  destruct (decide (n = 1)%Z) as [->|].
  { exists (Tensor (Δ x)).
    rewrite coproduct_iterated_1, (element_coproduct_Ok parent Δ HΔ).
    split; [done|split; [|lia]]. intros t Ht. by apply (Harity x). }
  destruct (split_sizes n) as (Hfn & Hcn & Hsum); [lia|].
  rewrite Hsum in Hcn. clear Hsum.
  set (fn := ((n - 1) `div` 2)%Z) in *.
  set (cn := (n - 1 - fn)%Z) in *.
  assert (∀ i j, ∃ v,
            (ra ← coproduct_iterated parent fn (monomial i) ;;;
             rb ← coproduct_iterated parent cn (monomial j) ;;;
             tensor [ra; rb]) = Ok v
            ∧ ∀ t, is_Some (v !! t) → length t = S (Z.to_nat n)) as Hsplit.
  { intros i j.
    destruct (IH (Z.to_nat fn) ltac:(lia) fn (monomial i) ltac:(lia) eq_refl)
      as (ea & -> & Hea & _).
    destruct (IH (Z.to_nat cn) ltac:(lia) cn (monomial j) ltac:(lia) eq_refl)
      as (eb & -> & Heb & _).
    cbn [rbind]. eexists. split; [reflexivity|]. intros t Ht.
    rewrite (lookup_tensor_pair ea eb _ _ _ t eq_refl Hea Heb Ht). lia. }
  exists (Tensor (module_morphism (split_value parent fn cn) (Δ x))).
  split; [|split; [|done]].
  - rewrite coproduct_iterated_ge_2 by lia. cbv zeta. fold fn cn.
    rewrite (element_coproduct_Ok parent Δ HΔ). cbn [rbind].
    rewrite (apply_multilinear_morphism_Ok _ (split_value parent fn cn));
      [done|].
    intros t c Ht.
    assert (length t = 2%nat) as Hlen by (apply (Harity x); by rewrite Ht).
    destruct t as [|i [|j [|]]]; try done. exists i, j, [].
    split; [done|]. unfold split_value.
    by destruct (Hsplit i j) as (v & -> & _).
  - intros t Ht. cbn [flat] in Ht.
    apply lookup_module_morphism in Ht as [t0 Ht0].
    unfold split_value in Ht0. destruct t0 as [|i [|j r]].
    + rewrite lookup_empty in Ht0. by destruct Ht0.
    + rewrite lookup_empty in Ht0. by destruct Ht0.
    + destruct (Hsplit i j) as (v & Hv & Hlen). rewrite Hv in Ht0. by apply Hlen.
Qed.
End IteratedCoproductShape.

(** ** The iterated coproduct: failures, zero, linearity, other splits *)

Section IteratedCoproductExtras.
Context {BR : base_ring} `{Countable K}.
Implicit Types (parent : coalgebra_parent BR K) (x : gmap K BR) (n : Z).
Implicit Types (Δ : gmap K BR → gmap (list K) BR).

Lemma module_morphism_ext `{Countable K'} (g g' : K → gmap K' BR) x :
  (∀ k, g k = g' k) → module_morphism g x = module_morphism g' x.
Proof.
  intros Hg. unfold module_morphism. f_equal.
  apply list_fmap_ext. intros _ [k c] _. cbn. by rewrite Hg.
Qed.

Lemma module_morphism_compose `{Countable K'} `{Countable K''}
    (f : K → gmap K' BR) (g : K' → gmap K'' BR) x :
  module_morphism g (module_morphism f x)
  = module_morphism (λ k, module_morphism g (f k)) x.
Proof.
  apply elt_ext; [apply wf_module_morphism..|]. intros φ.
  rewrite !eval_module_morphism. apply eval_ext. intros k.
  by rewrite eval_module_morphism.
Qed.

Lemma module_morphism_empty `{Countable K'} (g : K → gmap K' BR) :
  module_morphism g (∅ : gmap K BR) = ∅.
Proof. unfold module_morphism. by rewrite map_to_list_empty. Qed.

(** Extra X1. With a coproduct that takes its values in [A # A],
    [coproduct_iterated(n)] returns for every [n >= 0] (no exception
    escapes, whatever the coproduct is), and every index of the result
    has [n + 1] components: the result is an element of the [(n+1)]-fold
    tensor power. *)
Theorem coproduct_iterated_tensor_power parent Δ n x :
  coproduct parent = Some Δ →
  arity2 Δ →
  (0 ≤ n)%Z →
  ∃ e, coproduct_iterated parent n x = Ok e
       ∧ ∀ t, is_Some (flat e !! t) → length t = S (Z.to_nat n).
Proof.
  intros HΔ Harity Hn.
  destruct (coproduct_iterated_returns parent Δ n x HΔ Harity Hn)
    as (e & He & Hlen & _).
  eauto.
Qed.

(** Extra X2. When the parent has neither [coproduct_on_basis] nor
    [coproduct_by_coercion], the lazy attribute [coproduct] is [None]:
    [coproduct_iterated(n)] raises [TypeError] for every [n >= 1], while
    [coproduct_iterated(0)] still returns the element. *)
Theorem coproduct_iterated_without_coproduct parent n x :
  coproduct_on_basis parent = None →
  coproduct_by_coercion parent = None →
  coproduct parent = None
  ∧ ((1 ≤ n)%Z → coproduct_iterated parent n x = Raise TypeError)
  ∧ coproduct_iterated parent 0 x = Ok (Plain x).
Proof.
  intros Hbasis Hcoercion.
  assert (coproduct parent = None) as Hnone.
  { unfold coproduct. by rewrite Hbasis, Hcoercion. }
  assert (element_coproduct parent x = Raise TypeError) as Hx.
  { unfold element_coproduct. by rewrite Hnone. }
  split; [done|split; [|apply coproduct_iterated_0]].
  intros Hn. destruct (decide (n = 1)%Z) as [->|].
  - by rewrite coproduct_iterated_1, Hx.
  - rewrite coproduct_iterated_ge_2 by lia. cbv zeta. by rewrite Hx.
Qed.

Lemma rmapM_ext {X Y} (g g' : X → result Y) (l : list X) :
  (∀ a, g a = g' a) → rmapM g l = rmapM g' l.
Proof.
  intros Hg. induction l as [|a l IH]; [done|]. cbn. by rewrite Hg, IH.
Qed.

Lemma apply_multilinear_morphism_ext
    (f f' : gmap K BR → gmap K BR → result (gmap (list K) BR))
    (y : gmap (list K) BR) :
  (∀ a b, f a b = f' a b) →
  apply_multilinear_morphism f y = apply_multilinear_morphism f' y.
Proof.
  intros Hf. unfold apply_multilinear_morphism. f_equal.
  apply rmapM_ext. intros [[|i [|j r]] c]; cbn [fst snd]; try done.
  by rewrite Hf.
Qed.

(** The iterated coproduct reads the parent through its attribute
    [coproduct] alone. *)
Lemma coproduct_iterated_same_coproduct parent parent' n x :
  coproduct parent = coproduct parent' →
  coproduct_iterated parent n x = coproduct_iterated parent' n x.
Proof.
  intros Hsame.
  destruct (decide (n < 0)%Z) as [Hneg|Hpos];
    [by rewrite !coproduct_iterated_neg|].
  assert (0 ≤ n)%Z as Hn by lia. clear Hpos.
  remember (Z.to_nat n) as m eqn:Hm. revert n x Hn Hm.
  induction m as [m IH] using lt_wf_ind. intros n x Hn ->.
  assert (∀ y, element_coproduct parent y = element_coproduct parent' y)
    as Hx.
  { intros y. unfold element_coproduct. by rewrite Hsame. }
  destruct (decide (n = 0)%Z) as [->|]; [by rewrite !coproduct_iterated_0|].
  destruct (decide (n = 1)%Z) as [->|].
  { by rewrite !coproduct_iterated_1, Hx. }
  rewrite !coproduct_iterated_ge_2 by lia. cbv zeta. rewrite Hx.
  destruct (element_coproduct parent' x) as [y|]; [|done]. cbn [rbind].
  destruct (split_sizes n) as (Hfn & Hcn & Hsum); [lia|].
  rewrite Hsum in Hcn.
  f_equal. apply apply_multilinear_morphism_ext. intros a b.
  rewrite (IH (Z.to_nat ((n - 1) `div` 2)) ltac:(lia)
             ((n - 1) `div` 2)%Z a ltac:(lia) eq_refl).
  destruct (coproduct_iterated parent' ((n - 1) `div` 2) a); [|done].
  cbn [rbind].
  by rewrite (IH (Z.to_nat (n - 1 - (n - 1) `div` 2)) ltac:(lia)
                (n - 1 - (n - 1) `div` 2)%Z b ltac:(lia) eq_refl).
Qed.

(** Extra X3. A coproduct that comes by coercion serves the iterated
    coproduct as well as one defined on the basis: a parent without
    [coproduct_on_basis] whose [coproduct_by_coercion] is the linear
    extension of a function on the basis has, for every [n] and every
    element, the [coproduct_iterated(n)] of a parent that implements that
    function as [coproduct_on_basis] (the same result or the same
    exception). *)
Theorem coproduct_iterated_by_coercion parent parent'
    (on_basis : K → gmap (list K) BR) n x :
  coproduct_on_basis parent = Some on_basis →
  coproduct_on_basis parent' = None →
  coproduct_by_coercion parent' = Some (module_morphism on_basis) →
  coproduct_iterated parent' n x = coproduct_iterated parent n x.
Proof.
  intros Hbasis Hnone Hcoercion.
  apply coproduct_iterated_same_coproduct.
  unfold coproduct. by rewrite Hbasis, Hnone, Hcoercion.
Qed.

(** Extra X4. With the coproduct defined on the basis, the iterated
    coproducts of the zero element are zero: [coproduct_iterated(n)] of the
    empty dictionary is the empty element of the tensor power for every
    [n >= 1], whatever [coproduct_on_basis] is. *)
Theorem coproduct_iterated_zero parent (on_basis : K → gmap (list K) BR) n :
  coproduct_on_basis parent = Some on_basis →
  (1 ≤ n)%Z →
  coproduct_iterated parent n ∅ = Ok (Tensor ∅).
Proof.
  intros Hbasis Hn.
  assert (element_coproduct parent ∅ = Ok ∅) as Hzero.
  { unfold element_coproduct, coproduct. rewrite Hbasis.
    by rewrite module_morphism_empty. }
  destruct (decide (n = 1)%Z) as [->|].
  - by rewrite coproduct_iterated_1, Hzero.
  - rewrite coproduct_iterated_ge_2 by lia. cbv zeta. rewrite Hzero.
    cbn [rbind]. unfold apply_multilinear_morphism.
    by rewrite map_to_list_empty.
Qed.

(** Extra X5. With the coproduct defined on the basis, with values that
    are elements of [A # A], [coproduct_iterated(n)] is linear for every
    [n >= 1]: its value on an element is the linear extension of its
    values on the basis elements. *)
Theorem coproduct_iterated_linear parent (on_basis : K → gmap (list K) BR) n x :
  coproduct_on_basis parent = Some on_basis →
  (∀ i, wf (on_basis i)) →
  (∀ i t, is_Some (on_basis i !! t) → length t = 2%nat) →
  (1 ≤ n)%Z →
  (∀ k, ∃ e, coproduct_iterated parent n (monomial k) = Ok e)
  ∧ coproduct_iterated parent n x
    = Ok (Tensor (module_morphism (iterated_on_basis parent n) x)).
Proof.
  intros Hbasis Hwf Hlen Hn.
  assert (coproduct parent = Some (module_morphism on_basis)) as HΔ.
  { unfold coproduct. by rewrite Hbasis. }
  pose proof (arity2_module_morphism on_basis Hlen) as Harity.
  split.
  { intros k.
    destruct (coproduct_iterated_returns parent _ n (monomial k) HΔ Harity)
      as (e & He & _); [lia|eauto]. }
  destruct (decide (n = 1)%Z) as [->|].
  - rewrite coproduct_iterated_1, (element_coproduct_Ok parent _ HΔ).
    cbn [rbind]. do 2 f_equal. apply module_morphism_ext. intros k.
    unfold iterated_on_basis.
    rewrite coproduct_iterated_1, (element_coproduct_Ok parent _ HΔ).
    cbn [rbind flat]. by rewrite module_morphism_monomial.
  - destruct (coproduct_iterated_returns parent _ n x HΔ Harity)
      as (e & He & _ & Hshape); [lia|].
    rewrite He, Hshape by lia.
    do 2 f_equal. rewrite module_morphism_compose.
    apply module_morphism_ext. intros k. unfold iterated_on_basis.
    destruct (coproduct_iterated_returns parent _ n (monomial k) HΔ Harity)
      as (e' & He' & _ & Hshape'); [lia|].
    rewrite He', Hshape' by lia.
    cbn [flat]. by rewrite module_morphism_monomial.
Qed.
End IteratedCoproductExtras.

(** ** The iterated coproduct of a coassociative coproduct *)

Section IteratedCoproductCoassociative.
Context {BR : base_ring} `{Countable K}.
Implicit Types (x : gmap K BR) (n : Z).

Variable parent : coalgebra_parent BR K.
Variable Δ : gmap K BR → gmap (list K) BR.
Hypothesis parent_coproduct : coproduct parent = Some Δ.
Hypothesis Δ_arity : arity2 Δ.
Hypothesis Δ_coassoc : coassociative Δ.

Lemma coproduct_at_iter (m p : nat) x :
  p ≤ S m →
  coproduct_at Δ p (Nat.iter m (coproduct_at Δ 0) (Δ x))
  = Nat.iter (S m) (coproduct_at Δ 0) (Δ x).
Proof.
  intros Hp. apply elt_ext; [apply wf_coproduct_at|..].
  { rewrite Nat.iter_succ. apply wf_coproduct_at. }
  intros φ.
  rewrite eval_coproduct_at, !eval_iter_coproduct_at.
  by apply generalised_coassociativity.
Qed.

(** Extra X6. For a coassociative coproduct, one more coproduct at any
    tensor position of [coproduct_iterated(n)] is
    [coproduct_iterated(n + 1)]: the position of the next coproduct does
    not matter. *)
Theorem coproduct_iterated_succ_at_any_position n (p : nat) x :
  (1 ≤ n)%Z →
  p ≤ Z.to_nat n →
  ∃ t, coproduct_iterated parent n x = Ok (Tensor t)
       ∧ coproduct_iterated parent (n + 1) x = Ok (Tensor (coproduct_at Δ p t)).
Proof.
  intros Hn Hp.
  rewrite !(coproduct_iterated_eq_naive parent Δ) by (done || lia).
  destruct (Z.to_nat n) as [|m] eqn:Hm; [lia|].
  replace (Z.to_nat (n + 1)) with (S (S m)) by lia.
  rewrite !coproduct_naive_succ. eexists. split; [reflexivity|].
  by rewrite coproduct_at_iter.
Qed.

(** Extra X7. For a coassociative coproduct the split of the
    coproducts between the two factors is free: one coproduct followed by
    [coproduct_iterated(a)] on the left factor and [coproduct_iterated(b)]
    on the right one is [coproduct_iterated(a + b + 1)], for every
    [a, b >= 0] with [a + b >= 1], not only for the balanced split that
    the method takes. *)
Theorem coproduct_iterated_any_split (a b : Z) x :
  (0 ≤ a)%Z → (0 ≤ b)%Z → (1 ≤ a + b)%Z →
  (t ← apply_multilinear_morphism
         (λ u v,
            ra ← coproduct_iterated parent a u ;;;
            rb ← coproduct_iterated parent b v ;;;
            tensor [ra; rb])
         (Δ x) ;;;
   Ok (Tensor t))
  = coproduct_iterated parent (a + b + 1) x.
Proof.
  intros Ha Hb Hab.
  rewrite (coproduct_iterated_eq_naive parent Δ) by (done || lia).
  replace (Z.to_nat (a + b + 1)) with (S (Z.to_nat a + Z.to_nat b)) by lia.
  set (F := λ t : list K,
         match t with
         | i :: j :: _ =>
             sum_of_terms
               (tensor_terms [flat (coproduct_naive Δ (Z.to_nat a) (monomial i));
                              flat (coproduct_naive Δ (Z.to_nat b) (monomial j))])
         | _ => ∅
         end).
  rewrite (apply_multilinear_morphism_Ok _ F); last first.
  { intros t c Ht.
    assert (length t = 2) as Hlen by (apply (Δ_arity x); by rewrite Ht).
    destruct t as [|i [|j [|]]]; try done. exists i, j, [].
    split; [done|].
    by rewrite !(coproduct_iterated_eq_naive parent Δ) by (done || lia). }
  cbn [rbind]. rewrite coproduct_naive_succ. do 2 f_equal.
  apply elt_ext.
  { apply wf_module_morphism. }
  { destruct (Z.to_nat a + Z.to_nat b) as [|k] eqn:Hk; [lia|].
    rewrite Nat.iter_succ. apply wf_coproduct_at. }
  intros φ.
  rewrite eval_module_morphism, eval_iter_coproduct_at.
  rewrite <- (iter_pull_merge Δ Δ_arity Δ_coassoc (Z.to_nat a)) by done.
  apply eval_ext_dom. intros t c Ht.
  assert (length t = 2) as Hlen by (apply (Δ_arity x); by rewrite Ht).
  destruct t as [|i [|j [|]]]; try done. unfold F.
  rewrite eval_sum_of_terms. by apply teval_split.
Qed.
End IteratedCoproductCoassociative.

(** ** Inverses: failures, true inverses, round trip *)

Section InvertExtras.
Context {BR : base_ring} `{Countable K}.
Add Ring BR_ring_invert : (R_ring BR).
Local Open Scope base_ring_scope.
Implicit Types (A : algebra_parent BR K).

Lemma eval_singleton (φ : K → BR) (k : K) (c : BR) :
  eval φ ({[k := c]} : gmap K BR) = c * φ k.
Proof.
  rewrite <- insert_empty, eval_insert, eval_empty by apply lookup_empty. ring.
Qed.

Lemma term_nonzero (k : K) (c : BR) : c ≠ 0 → term k c = {[k := c]}.
Proof.
  intros Hc. unfold term, sum_of_terms. cbn. unfold add_term, coeff. cbn.
  rewrite lookup_empty. cbn.
  replace (0 + c) with c by ring.
  rewrite decide_False by done. by rewrite insert_empty.
Qed.

(** What [__invert__] returns, when it returns and [~c] stays in the
    base ring. *)
Lemma invert_returns (rinv : BR → option BR) A (one : K)
    (x y : gmap K BR) :
  one_basis A = Method one →
  (__invert__ (in_ring rinv) A x).1 = Ok y →
  ∃ c c', x = {[one := c]} ∧ rinv c = Some c' ∧ y = term one c'.
Proof.
  intros Hone Hy.
  destruct (decide (size x = 1%nat ∧ is_Some (x !! one))) as [Hyes|Hno].
  - apply singleton_iff in Hyes as [c ->].
    rewrite (invert_singleton (in_ring rinv) A one c Hone) in Hy.
    cbn [fst] in Hy. unfold inverse in Hy. cbn in Hy.
    destruct (rinv c) as [c'|] eqn:Hc; [|done].
    exists c, c'. cbn in Hy. injection Hy as <-.
    by rewrite term_of_inverse_in_ring.
  - rewrite (invert_not_singleton (in_ring rinv) A one x Hone) in Hy; [done|].
    intros c ->. apply Hno. by apply singleton_iff; eauto.
Qed.

(** Extra X8. The parent's [one_basis] is called before the dictionary
    is looked at: when it is [NotImplemented] the call fails with a
    [TypeError] for every element, invertible or not, and the dictionary
    is left as it was. *)
Theorem invert_without_one_basis (I : inversion BR) A (x : gmap K BR) :
  one_basis A = NotImplemented →
  __invert__ I A x = (Raise TypeError, x).
Proof.
  intros Hone. unfold __invert__, dbind, dret. by rewrite Hone.
Qed.

(** Extra X9. What [__invert__] returns is a two-sided inverse for the
    product of the algebra, when [one_basis] indexes a unit of the product
    and [~c] is an inverse of [c] in the base ring:
    [x * ~x = ~x * x = B[one_basis()]]. *)
Theorem invert_is_inverse (rinv : BR → option BR) A (one : K)
    (x y : gmap K BR) :
  one_basis A = Method one →
  product_on_basis A one one = monomial one →
  (∀ c c' : BR, rinv c = Some c' → c * c' = 1) →
  (__invert__ (in_ring rinv) A x).1 = Ok y →
  product A x y = monomial one ∧ product A y x = monomial one.
Proof.
  intros Hone Hunit Hinv Hy.
  destruct (invert_returns rinv A one x y Hone Hy) as (c & c' & -> & Hc & ->).
  specialize (Hinv c c' Hc).
  split; (apply elt_ext; [apply wf_linear_combination|apply wf_monomial|]);
    intros φ; rewrite eval_product.
  - rewrite eval_singleton, eval_term, Hunit, !eval_monomial.
    transitivity (c * c' * φ one); [ring|]. rewrite Hinv. ring.
  - rewrite eval_term, eval_singleton, Hunit, !eval_monomial.
    transitivity (c * c' * φ one); [ring|]. rewrite Hinv. ring.
Qed.

(** Extra X10. Inverting twice gives the element back, over a base ring
    that is not the zero ring and in which [~c] is the inverse of [c]
    whenever [c] has one. *)
Theorem invert_involutive (rinv : BR → option BR) A (one : K)
    (x y : gmap K BR) :
  one_basis A = Method one →
  (1 : BR) ≠ 0 →
  (∀ c c' : BR, rinv c = Some c' ↔ c * c' = 1) →
  wf x →
  (__invert__ (in_ring rinv) A x).1 = Ok y →
  (__invert__ (in_ring rinv) A y).1 = Ok x.
Proof.
  intros Hone Hnontrivial Hinv Hwf Hy.
  destruct (invert_returns rinv A one x y Hone Hy) as (c & c' & -> & Hc & ->).
  apply Hinv in Hc.
  assert (c' ≠ 0) as Hc'.
  { intros ->. apply Hnontrivial. rewrite <- Hc. ring. }
  assert (c ≠ 0) as Hc0.
  { intros ->. by apply (Hwf one), lookup_singleton_eq. }
  rewrite (term_nonzero one c' Hc').
  rewrite (invert_singleton (in_ring rinv) A one c' Hone).
  cbn [fst]. unfold inverse. cbn [invert_coefficient in_ring].
  assert (rinv c' = Some c) as ->.
  { apply Hinv. rewrite <- Hc. ring. }
  cbn [rbind]. by rewrite term_of_inverse_in_ring, (term_nonzero one c Hc0).
Qed.
End InvertExtras.

(** ** Tensor products and Cartesian products: units, shapes, failures *)

Section ProductExtras.
Context {BR : base_ring} `{Countable K}.
Add Ring BR_ring_products : (R_ring BR).
Local Open Scope base_ring_scope.
Implicit Types (A : algebra_parent BR K) (sets : list (algebra_parent BR K)).
Implicit Types (t : list K).

Lemma coeff_monomial `{Countable K'} (z j : K') :
  coeff (monomial z : gmap K' BR) j = indicator j z.
Proof. by rewrite coeff_eval, eval_monomial. Qed.

Lemma tensor_coeff_monomials (zs t : list K) :
  tensor_coeff (BR := BR) (monomial <$> zs) t = indicator t zs.
Proof.
  revert t. induction zs as [|z zs IH]; intros [|k t]; cbn [fmap list_fmap tensor_coeff].
  - unfold indicator. by rewrite decide_True.
  - unfold indicator. by rewrite decide_False.
  - unfold indicator. by rewrite decide_False.
  - by rewrite IH, coeff_monomial, indicator_cons.
Qed.

(** The tensor of basis elements is the basis element of the tuple. *)
Lemma tensor_monomials (zs : list K) :
  zs ≠ [] →
  tensor (Plain <$> (monomial <$> zs)) = Ok (monomial zs : gmap (list K) BR).
Proof.
  intros Hzs.
  destruct (tensor (Plain <$> (monomial (BR := BR) <$> zs))) as [z|e] eqn:Hz.
  - f_equal. apply elt_ext_coeff.
    + by apply (wf_tensor _ _ Hz).
    + apply wf_monomial.
    + intros t. rewrite (coeff_tensor_plain _ _ _ Hz).
      by rewrite tensor_coeff_monomials, coeff_monomial.
  - by destruct zs.
Qed.

Lemma tensor_product_on_basis_monomial_factors sets (t1 t2 zs : list K) :
  zs ≠ [] →
  Forall2 (λ (mxy : algebra_parent BR K * K * K) z,
             product_on_basis mxy.1.1 mxy.1.2 mxy.2 = monomial z)
    (zip3 sets t1 t2) zs →
  tensor_product_on_basis sets t1 t2 = Ok (monomial zs).
Proof.
  intros Hzs Hall. unfold tensor_product_on_basis.
  rewrite <- (tensor_monomials zs Hzs). f_equal. clear Hzs.
  induction Hall as [|[[A k1] k2] z l zs' Hz _ IH]; [done|].
  cbn [fmap list_fmap fst snd] in *. f_equal; [|done]. f_equal.
  rewrite product_monomial; [done|]. rewrite Hz. apply wf_monomial.
Qed.

(** Extra X11. When in every factor the product of the two basis
    elements is again a basis element, [B[x_j] * B[y_j] = B[z_j]], the
    product on the basis of the tensor product is the basis element of
    the tuple of these, [B[(z_1, ..., z_k)]]. *)
Theorem tensor_product_on_basis_monomials sets (t1 t2 zs : list K) :
  zs ≠ [] →
  Forall2 (λ (mxy : algebra_parent BR K * K * K) z,
             product_on_basis mxy.1.1 mxy.1.2 mxy.2 = monomial z)
    (zip3 sets t1 t2) zs →
  tensor_product_on_basis sets t1 t2 = Ok (monomial zs).
Proof. apply tensor_product_on_basis_monomial_factors. Qed.

(** Extra X12. When [one_basis()] of every factor indexes a unit of its
    product on the basis, [one_basis()] of the tensor product indexes a
    unit of [product_on_basis] of the tensor product, on both sides. *)
Theorem tensor_one_basis_is_unit sets (ones t : list K) :
  sets ≠ [] →
  Forall2 (λ A o, one_basis A = Method o
                  ∧ ∀ k, product_on_basis A o k = monomial k
                         ∧ product_on_basis A k o = monomial k) sets ones →
  length t = length sets →
  tensor_one_basis sets = Ok ones
  ∧ tensor_product_on_basis sets ones t = Ok (monomial t)
  ∧ tensor_product_on_basis sets t ones = Ok (monomial t).
Proof.
  intros Hsets Hall Hlen.
  assert (t ≠ []) as Ht by (destruct t, sets; done).
  split; [|split].
  - unfold tensor_one_basis.
    assert (Forall2 (λ A o, one_basis A = Method o) sets ones) as Hones.
    { eapply Forall2_impl; [done|]. by intros A o [? _]. }
    rewrite (proj2 (forallb_hasattr sets)).
    + by apply rmapM_call_one_basis.
    + intros A HA Hmissing.
      destruct (Forall2_one_basis_elem_of sets ones A Hones HA) as [o Ho].
      congruence.
  - apply tensor_product_on_basis_monomial_factors; [done|].
    clear Hsets Ht. revert t Hlen.
    induction Hall as [|A o sets ones [_ Hunit] _ IH]; intros [|k t] Hlen;
      try done.
    cbn [zip3]. constructor; [apply Hunit|]. apply IH. by injection Hlen.
  - apply tensor_product_on_basis_monomial_factors; [done|].
    clear Hsets Ht. revert t Hlen.
    induction Hall as [|A o sets ones [_ Hunit] _ IH]; intros [|k t] Hlen;
      try done.
    cbn [zip3]. constructor; [apply Hunit|]. apply IH. by injection Hlen.
Qed.

Lemma length_zip3_min {X Y W} (a : list X) (b : list Y) (c : list W) :
  length (zip3 a b c) = (length a `min` (length b `min` length c))%nat.
Proof.
  revert b c. induction a as [|ea a IH]; intros [|eb b] [|ec c];
    cbn [zip3 length]; rewrite ?IH; lia.
Qed.

Lemma lookup_tensor_plain (l : list (gmap K BR)) (z : gmap (list K) BR) t :
  tensor (Plain <$> l) = Ok z → is_Some (z !! t) → length t = length l.
Proof.
  intros Hz Ht. assert (z = sum_of_terms (tensor_terms (flat <$> (Plain <$> l))))
    as ->.
  { destruct l; [done|]. unfold tensor in Hz.
    cbn [fmap list_fmap] in Hz |- *. congruence. }
  apply lookup_sum_of_terms, elem_of_tensor_terms in Ht as (ks & -> & Hks).
  clear Hz. revert ks Hks. induction l as [|a l IH]; intros ks Hks.
  - by apply Forall2_nil_inv_l in Hks as ->.
  - apply Forall2_cons_inv_l in Hks as (k & ks' & Hk & Hks & ->).
    cbn. rewrite length_app, (lookup_flat_Plain a k Hk). f_equal.
    by apply IH.
Qed.

(** Extra X13. [product_on_basis] of a tensor product pairs the factors
    with the two tuples by [zip]: with no factor or with an empty tuple
    the [tensor] of nothing fails its assertion, and tuples of other
    lengths than the number of factors are cut to the shortest without an
    error, every index of the result having that many components. *)
Theorem tensor_product_on_basis_zip sets (t1 t2 : list K) :
  (sets = [] ∨ t1 = [] ∨ t2 = [] →
   tensor_product_on_basis sets t1 t2 = Raise AssertionError)
  ∧ (sets ≠ [] → t1 ≠ [] → t2 ≠ [] →
     ∃ z : gmap (list K) BR,
       tensor_product_on_basis sets t1 t2 = Ok z
       ∧ wf z
       ∧ ∀ t, is_Some (z !! t) →
              length t
              = (length sets `min` (length t1 `min` length t2))%nat).
Proof.
  split.
  - intros Hempty. unfold tensor_product_on_basis.
    assert (zip3 sets t1 t2 = []) as ->; [|done].
    destruct Hempty as [->|[->| ->]]; [done|by destruct sets|].
    by destruct sets, t1.
  - intros Hsets Ht1 Ht2.
    set (factors := (λ mxy : algebra_parent BR K * K * K,
                       product mxy.1.1 (monomial mxy.1.2) (monomial mxy.2))
                    <$> zip3 sets t1 t2).
    assert (tensor_product_on_basis sets t1 t2 = tensor (Plain <$> factors))
      as ->.
    { unfold tensor_product_on_basis, factors.
      by rewrite <- list_fmap_compose. }
    assert (length factors
            = (length sets `min` (length t1 `min` length t2))%nat) as Hlen.
    { unfold factors. by rewrite length_fmap, length_zip3_min. }
    destruct (tensor (Plain <$> factors)) as [z|e] eqn:Hz.
    + exists z. split; [done|]. split; [by apply (wf_tensor _ _ Hz)|].
      intros t Ht. by rewrite (lookup_tensor_plain factors z t Hz Ht).
    + destruct factors; [|done]. destruct sets, t1, t2; done.
Qed.

(** *** When the units are returned *)

Lemma rmapM_call_one_basis_inv sets (ones : list K) :
  rmapM (λ A, call (one_basis A)) sets = Ok ones →
  Forall2 (λ A o, one_basis A = Method o) sets ones.
Proof.
  revert ones. induction sets as [|A sets IH]; intros ones Hones.
  - cbn in Hones. injection Hones as <-. constructor.
  - cbn in Hones. destruct (one_basis A) as [| |o] eqn:HA; try done.
    cbn in Hones.
    destruct (rmapM (λ A, call (one_basis A)) sets) as [os|] eqn:Hos;
      [|done].
    cbn in Hones. injection Hones as <-. constructor; [done|]. by apply IH.
Qed.


(** Extra X14. On a tensor product, [one_basis()] returns a tuple
    exactly when [one_basis] is a real method of every factor, and the
    tuple then has one component per factor, the [one_basis()] of that
    factor. *)
Theorem tensor_one_basis_returns_iff sets (ones : list K) :
  tensor_one_basis sets = Ok ones
  ↔ Forall2 (λ A o, one_basis A = Method o) sets ones.
Proof.
  split.
  - unfold tensor_one_basis. destruct (forallb _ sets); [|done].
    apply rmapM_call_one_basis_inv.
  - intros Hall. unfold tensor_one_basis.
    rewrite (proj2 (forallb_hasattr sets)).
    + by apply rmapM_call_one_basis.
    + intros A HA Hmissing.
      destruct (Forall2_one_basis_elem_of sets ones A Hall HA) as [o Ho].
      congruence.
Qed.

End ProductExtras.


(** ** The further properties on the concrete parents *)

Section ExtraExamples.

Lemma QQ_one_neq_zero : QQ_of 1 1 ≠ QQ_of 0 1.
Proof. intros Heq. apply (f_equal Qcanon.this) in Heq. discriminate Heq. Qed.

(** In [QQ], [~c] is the inverse of [c] whenever [c] has one. *)
Lemma QQ_inv_iff (c c' : Qcanon.Qc) :
  QQ_inv c = Some c' ↔ Qcanon.Qcmult c c' = QQ_of 1 1.
Proof.
  unfold QQ_inv. split.
  - destruct (Qcanon.Qc_eq_dec c (QQ_of 0 1)) as [Hc|Hc]; [done|].
    intros [= <-]. by apply Qcanon.Qcmult_inv_r.
  - intros Hinv. destruct (Qcanon.Qc_eq_dec c (QQ_of 0 1)) as [Hc|Hc].
    + subst c. rewrite Qcanon.Qcmult_0_l in Hinv.
      by destruct QQ_one_neq_zero.
    + f_equal.
      rewrite <- (Qcanon.Qcmult_1_r (Qcanon.Qcinv c)).
      change (Qcanon.Q2Qc (QArith_base.Qmake 1 1)) with (QQ_of 1 1).
      rewrite <- Hinv.
      rewrite Qcanon.Qcmult_assoc, Qcanon.Qcmult_inv_l by done.
      apply Qcanon.Qcmult_1_l.
Qed.

Lemma coproduct_iterated_tensor_power_witness :
  ∃ e, coproduct_iterated grouplike 3 sample_element = Ok e
       ∧ ∀ t, is_Some (flat e !! t) → length t = 4%nat.
Proof.
  exact (coproduct_iterated_tensor_power grouplike
           (module_morphism grouplike_on_basis) 3 sample_element
           eq_refl grouplike_arity ltac:(lia)).
Defined.

Lemma coproduct_iterated_without_coproduct_witness :
  coproduct no_coproduct = None
  ∧ ((1 ≤ 3)%Z → coproduct_iterated no_coproduct 3 sample_element = Raise TypeError)
  ∧ coproduct_iterated no_coproduct 0 sample_element = Ok (Plain sample_element).
Proof.
  exact (coproduct_iterated_without_coproduct no_coproduct 3 sample_element
           eq_refl eq_refl).
Defined.

Lemma coproduct_iterated_by_coercion_witness :
  coproduct_iterated coproduct_by_coercion_only 3 sample_element
  = coproduct_iterated grouplike 3 sample_element.
Proof.
  exact (coproduct_iterated_by_coercion grouplike coproduct_by_coercion_only
           grouplike_on_basis 3 sample_element eq_refl eq_refl eq_refl).
Defined.

Lemma coproduct_iterated_zero_witness :
  coproduct_iterated divided_power 3 ∅ = Ok (Tensor ∅).
Proof.
  exact (coproduct_iterated_zero divided_power divided_power_on_basis 3
           eq_refl ltac:(lia)).
Defined.

Lemma grouplike_length (i : nat) (t : list nat) :
  is_Some (grouplike_on_basis i !! t) → length t = 2%nat.
Proof.
  intros Ht. apply lookup_sum_of_terms in Ht. cbn in Ht.
  by apply list_elem_of_singleton in Ht as ->.
Qed.

Lemma coproduct_iterated_linear_witness :
  (∀ k, ∃ e, coproduct_iterated grouplike 3 (monomial k) = Ok e)
  ∧ coproduct_iterated grouplike 3 sample_element
    = Ok (Tensor (module_morphism (iterated_on_basis grouplike 3) sample_element)).
Proof.
  exact (coproduct_iterated_linear grouplike grouplike_on_basis 3
           sample_element eq_refl grouplike_wf grouplike_length ltac:(lia)).
Defined.

Lemma coproduct_iterated_succ_at_any_position_witness :
  ∃ t, coproduct_iterated grouplike 2 sample_element = Ok (Tensor t)
       ∧ coproduct_iterated grouplike (2 + 1) sample_element
         = Ok (Tensor (coproduct_at (module_morphism grouplike_on_basis) 2 t)).
Proof.
  exact (coproduct_iterated_succ_at_any_position grouplike
           (module_morphism grouplike_on_basis) eq_refl grouplike_arity
           grouplike_coassociative 2 2 sample_element ltac:(lia) ltac:(lia)).
Defined.

Lemma coproduct_iterated_any_split_witness :
  (t ← apply_multilinear_morphism
         (λ u v,
            ra ← coproduct_iterated grouplike 0 u ;;;
            rb ← coproduct_iterated grouplike 3 v ;;;
            tensor [ra; rb])
         (module_morphism grouplike_on_basis sample_element) ;;;
   Ok (Tensor t))
  = coproduct_iterated grouplike (0 + 3 + 1) sample_element.
Proof.
  exact (coproduct_iterated_any_split grouplike
           (module_morphism grouplike_on_basis) eq_refl grouplike_arity
           grouplike_coassociative 0 3 sample_element
           ltac:(lia) ltac:(lia) ltac:(lia)).
Defined.

(** An unbalanced split on the divided power coalgebra. *)
Example coproduct_iterated_unbalanced_split :
  (t ← apply_multilinear_morphism
         (λ u v,
            ra ← coproduct_iterated divided_power 3 u ;;;
            rb ← coproduct_iterated divided_power 0 v ;;;
            tensor [ra; rb])
         (module_morphism divided_power_on_basis (monomial 2%nat)) ;;;
   Ok (Tensor t))
  = coproduct_iterated divided_power 4 (monomial 2%nat).
Proof. vm_compute. reflexivity. Qed.

Lemma invert_without_one_basis_witness :
  __invert__ ZZ_inversion without_one_basis (term [] 1%Z)
  = (Raise TypeError, term [] 1%Z).
Proof.
  exact (invert_without_one_basis ZZ_inversion without_one_basis
           (term [] 1%Z) eq_refl).
Defined.

Lemma invert_two_returns :
  (__invert__ QQ_inversion free_algebra_QQ (term [] (QQ_of 2 1))).1
  = Ok (term [] (QQ_of 1 2)).
Proof. vm_compute. reflexivity. Qed.

Lemma invert_is_inverse_witness :
  product free_algebra_QQ (term [] (QQ_of 2 1)) (term [] (QQ_of 1 2))
  = monomial []
  ∧ product free_algebra_QQ (term [] (QQ_of 1 2)) (term [] (QQ_of 2 1))
    = monomial [].
Proof.
  exact (invert_is_inverse QQ_inv free_algebra_QQ [] (term [] (QQ_of 2 1))
           (term [] (QQ_of 1 2)) eq_refl eq_refl
           (λ c c', proj1 (QQ_inv_iff c c')) invert_two_returns).
Defined.

Lemma invert_involutive_witness :
  (__invert__ QQ_inversion free_algebra_QQ (term [] (QQ_of 1 2))).1
  = Ok (term [] (QQ_of 2 1)).
Proof.
  exact (invert_involutive QQ_inv free_algebra_QQ [] (term [] (QQ_of 2 1))
           (term [] (QQ_of 1 2)) eq_refl QQ_one_neq_zero QQ_inv_iff
           (wf_term [] (QQ_of 2 1)) invert_two_returns).
Defined.

Lemma three_copies_products :
  Forall2 (λ (mxy : algebra_parent integers (list nat) * list nat * list nat) z,
             product_on_basis mxy.1.1 mxy.1.2 mxy.2 = monomial z)
    (zip3 three_copies [[0]; [1]; [2]]%nat [[2]; [1]; [0]]%nat)
    [[0; 2]; [1; 1]; [2; 0]]%nat.
Proof. repeat constructor. Qed.

(** [x * y] of the docstring: [B[ac] # B[bb] # B[ca]]. *)
Lemma tensor_product_on_basis_monomials_witness :
  tensor_product_on_basis three_copies [[0]; [1]; [2]]%nat [[2]; [1]; [0]]%nat
  = Ok (monomial [[0; 2]; [1; 1]; [2; 0]]%nat).
Proof.
  exact (tensor_product_on_basis_monomials three_copies
           [[0]; [1]; [2]]%nat [[2]; [1]; [0]]%nat
           [[0; 2]; [1; 1]; [2; 0]]%nat ltac:(done) three_copies_products).
Defined.

Lemma three_copies_units :
  Forall2 (λ (A : algebra_parent integers (list nat)) o,
             one_basis A = Method o
             ∧ ∀ k, product_on_basis A o k = monomial k
                    ∧ product_on_basis A k o = monomial k)
    three_copies [[]; []; []].
Proof.
  repeat constructor; cbn; by rewrite ?app_nil_r.
Qed.

Lemma tensor_one_basis_is_unit_witness :
  tensor_one_basis three_copies = Ok [[]; []; []]
  ∧ tensor_product_on_basis three_copies [[]; []; []] [[0]; [1]; [2]]%nat
    = Ok (monomial [[0]; [1]; [2]]%nat)
  ∧ tensor_product_on_basis three_copies [[0]; [1]; [2]]%nat [[]; []; []]
    = Ok (monomial [[0]; [1]; [2]]%nat).
Proof.
  exact (tensor_one_basis_is_unit three_copies [[]; []; []]
           [[0]; [1]; [2]]%nat ltac:(done) three_copies_units eq_refl).
Defined.

(** Tuples of other lengths than the number of factors: cut to the
    shortest, or no factor left. *)
Example tensor_product_on_basis_cut :
  tensor_product_on_basis three_copies [[0]; [1]]%nat [[2]; [1]; [0]; [3]]%nat
  = Ok (monomial [[0; 2]; [1; 1]]%nat).
Proof. vm_compute. reflexivity. Qed.

Example tensor_product_on_basis_empty :
  tensor_product_on_basis three_copies [] [[2]; [1]; [0]]%nat
  = Raise AssertionError.
Proof. reflexivity. Qed.

Lemma tensor_product_on_basis_zip_witness :
  ∃ z : gmap (list (list nat)) integers,
    tensor_product_on_basis three_copies [[0]; [1]]%nat [[2]; [1]; [0]; [3]]%nat
    = Ok z
    ∧ wf z
    ∧ ∀ t, is_Some (z !! t) → length t = 2%nat.
Proof.
  exact (proj2 (tensor_product_on_basis_zip three_copies
                  [[0]; [1]]%nat [[2]; [1]; [0]; [3]]%nat)
           ltac:(done) ltac:(done) ltac:(done)).
Defined.
End ExtraExamples.
